(** * YouTube Video Clipper: the clip queue and the capture orchestration

    A shallow embedding of [src/App.tsx]: the clip-queue handlers
    ([handleAddClip]), the segment player ([playSegment]) and the
    orchestration ([handleCreateVideo]) with its event handlers
    ([visibilityHandler], [recorder.ondataavailable], [recorder.onstop]).

    The component is event driven.  Every callback of the source runs to
    completion on the single JavaScript thread, so the embedding is a
    transition system: a [World] holds the React state, the variables
    captured by the closures and the platform objects the code talks to,
    and [step] runs one callback for one platform event. *)

From Stdlib Require Import List String Ascii Bool Arith ZArith QArith Lia.
From Stdlib Require Import Sorted Permutation DecimalString Lqa.
Import ListNotations.

Local Close Scope Q_scope.
Local Open Scope string_scope.
Local Open Scope list_scope.
Local Open Scope nat_scope.

(** ** JavaScript numbers

    The code only compares numbers and subtracts them to obtain a sign,
    so a finite double is represented by the rational it denotes.
    Comparison of doubles is comparison of these rationals, and the sign
    of a rounded difference is the sign of the exact one. *)

Module Num.

Inductive number : Type :=
| NaN
| NegInf
| Fin (q : Q)
| PosInf.

(** The IEEE ordering; [None] when an operand is [NaN]. *)
Definition compare (a b : number) : option comparison :=
  match a, b with
  | NaN, _ | _, NaN => None
  | NegInf, NegInf => Some Eq
  | NegInf, _ => Some Lt
  | _, NegInf => Some Gt
  | PosInf, PosInf => Some Eq
  | PosInf, _ => Some Gt
  | _, PosInf => Some Lt
  | Fin x, Fin y => Some (x ?= y)%Q
  end.

(** [a >= b] *)
Definition ge (a b : number) : bool :=
  match compare a b with
  | Some Gt | Some Eq => true
  | _ => false
  end.

(** [a < b] *)
Definition lt (a b : number) : bool :=
  match compare a b with
  | Some Lt => true
  | _ => false
  end.

(** [a <= b] *)
Definition le (a b : number) : bool :=
  match compare a b with
  | Some Lt | Some Eq => true
  | _ => false
  end.

(** [a === b] on numbers *)
Definition eqb (a b : number) : bool :=
  match compare a b with
  | Some Eq => true
  | _ => false
  end.

Definition isNaN (a : number) : bool :=
  match a with
  | NaN => true
  | _ => false
  end.

(** [a - b] *)
Definition sub (a b : number) : number :=
  match a, b with
  | NaN, _ | _, NaN => NaN
  | PosInf, PosInf | NegInf, NegInf => NaN
  | PosInf, _ | _, NegInf => PosInf
  | NegInf, _ | _, PosInf => NegInf
  | Fin x, Fin y => Fin (x - y)
  end.

(** How [Array.prototype.sort] reads the value returned by its comparator:
    negative, zero or positive, with [NaN] read as [+0]. *)
Definition sign (v : number) : comparison :=
  match v with
  | NaN => Eq
  | NegInf => Lt
  | PosInf => Gt
  | Fin q => (q ?= 0)%Q
  end.

End Num.

Abbreviation number := Num.number.

(** ** Arrays: [Array.prototype.sort]

    ECMAScript requires the sort to be stable and leaves the algorithm to
    the engine.  For a comparator that is a consistent ordering of the
    elements, the result is the same for every algorithm
    ([sort_unique] below); insertion from the right is the one
    used here. *)

Section ArraySort.
Context {A : Type}.
Variable comparefn : A -> A -> number.

Fixpoint insert (x : A) (l : list A) : list A :=
  match l with
  | [] => [x]
  | y :: l' =>
      match Num.sign (comparefn x y) with
      | Gt => y :: insert x l'
      | _ => x :: l
      end
  end.

Fixpoint sort (l : list A) : list A :=
  match l with
  | [] => []
  | x :: l' => insert x (sort l')
  end.
End ArraySort.

(** ** The clip model ([./types]) *)

Record Clip : Type := mkClip {
  id : string;
  start : number;
  end_ : number
}.

(** [(a, b) => a.start - b.start] *)
Definition byStart (a b : Clip) : number := Num.sub (start a) (start b).

(** ** React state of the component *)

Definition Blob : Type := list Byte.byte.

Record AppState : Type := mkApp {
  clips : list Clip;
  startTime : string;
  endTime : string;
  isProcessing : bool;
  processingStatus : string;
  finishedVideoUrl : option Blob;   (* the object URL, as the blob it names *)
  error : option string
}.

Definition setClips v (s : AppState) : AppState :=
  mkApp v (startTime s) (endTime s) (isProcessing s) (processingStatus s)
        (finishedVideoUrl s) (error s).
Definition setStartTime v (s : AppState) : AppState :=
  mkApp (clips s) v (endTime s) (isProcessing s) (processingStatus s)
        (finishedVideoUrl s) (error s).
Definition setEndTime v (s : AppState) : AppState :=
  mkApp (clips s) (startTime s) v (isProcessing s) (processingStatus s)
        (finishedVideoUrl s) (error s).
Definition setIsProcessing v (s : AppState) : AppState :=
  mkApp (clips s) (startTime s) (endTime s) v (processingStatus s)
        (finishedVideoUrl s) (error s).
Definition setProcessingStatus v (s : AppState) : AppState :=
  mkApp (clips s) (startTime s) (endTime s) (isProcessing s) v
        (finishedVideoUrl s) (error s).
Definition setFinishedVideoUrl v (s : AppState) : AppState :=
  mkApp (clips s) (startTime s) (endTime s) (isProcessing s)
        (processingStatus s) v (error s).
Definition setError v (s : AppState) : AppState :=
  mkApp (clips s) (startTime s) (endTime s) (isProcessing s)
        (processingStatus s) (finishedVideoUrl s) v.

(** ** The clip-queue handler

    [parseTimeToSeconds] lives in [./utils/time], which is not part of the
    sources at hand: it is a parameter.  [now] is the value of
    [Date.now().toString()] at the call. *)

Section ClipQueue.
Variable parseTimeToSeconds : string -> number.

Definition handleAddClip (now : string) (s : AppState) : AppState :=
  let s := setError None s in
  let start := parseTimeToSeconds (startTime s) in
  let end_ := parseTimeToSeconds (endTime s) in
  if Num.ge start end_ then
    setError (Some "End time must be after start time.") s
  else if Num.isNaN start || Num.isNaN end_ then
    setError (Some "Invalid time format. Please use MM:SS or HH:MM:SS.") s
  else
    let newClip := mkClip now start end_ in
    let s := setClips (sort byStart (clips s ++ [newClip])) s in
    let s := setStartTime "" s in
    setEndTime "" s.
End ClipQueue.

(** ** Platform objects *)

(** What a [try] block can catch. *)
Inductive Exn : Type :=
| DOMException (name message : string)
| Error (message : string)
| Thrown.                      (* a thrown value that is not an [Error] *)

(** The calls inside the [try] block of [handleCreateVideo] that the
    platform may answer with an exception. *)
Inductive Op : Type :=
| OpMediaRecorder              (* new MediaRecorder(stream, ...) *)
| OpStart                      (* recorder.start() *)
| OpIsMuted
| OpUnMute
| OpSetVolume
| OpSeekTo
| OpPlayVideo.

(** The YouTube player behind [playerRef.current]. *)
Record Player : Type := mkPlayer {
  muted : bool;
  volume : nat;
  playing : bool
}.

(** A [MediaStream]: for each track, how often [stop()] was called on it. *)
Definition MediaStream : Type := list nat.

Inductive RecorderState : Type := inactive | recording.

Inductive Visibility : Type := visible | hidden.

(** Calls made on the platform, in the order they are made. *)
Inductive Action : Type :=
| GetDisplayMedia
| AddEventListener
| RemoveEventListener
| NewMediaRecorder
| RecorderStart
| RecorderStop
| TrackStop (i : nat)
| UnMute
| SetVolume (v : nat)
| Progress (i total : nat) (c : Clip)     (* setProcessingStatus in the loop *)
| SeekTo (t : number)
| PlayVideo
| PauseVideo
| SetInterval (ms : nat)
| ClearInterval
| GetCurrentTime (t : number)             (* the call and what it returned *)
| SetTimeout (ms : nat)
| Resolve                                 (* resolve() of playSegment's promise *)
| CreateObjectURL (b : Blob).

(** The closure of one [playSegment] call. *)
Record Poll : Type := mkPoll {
  poll_end : number;           (* [end] *)
  resolved : bool;             (* [resolved] *)
  checkInterval : bool;        (* the interval timer is live *)
  settle : bool                (* the 200 ms timeout is pending *)
}.

(** Where the body of [handleCreateVideo] stands. *)
Inductive Control : Type :=
| Idle                         (* not called, or returned at the guard *)
| AwaitStream                  (* suspended at [await getDisplayMedia] *)
| AwaitSegment (i : nat)       (* suspended at [await playSegment] of clip i *)
| Completed                    (* left the [try] block at its end *)
| Caught.                      (* left through the [catch] block *)

Record World : Type := mkWorld {
  app : AppState;
  playerRef : option Player;           (* playerRef.current *)
  recordedChunks : list Blob;          (* recordedChunks.current *)
  snapshot : list Clip;                (* [clips] as captured by the closure *)
  stream : option MediaStream;         (* [stream] *)
  recorder : option RecorderState;     (* [recorder] and its [state] *)
  listening : bool;                    (* visibilityHandler is registered *)
  stopEvent : bool;                    (* a [stop] event awaits dispatch *)
  poll : option Poll;
  control : Control;
  trace : list Action
}.

Definition withApp (f : AppState -> AppState) (w : World) : World :=
  mkWorld (f (app w)) (playerRef w) (recordedChunks w) (snapshot w) (stream w)
          (recorder w) (listening w) (stopEvent w) (poll w) (control w) (trace w).
Definition withPlayer (f : Player -> Player) (w : World) : World :=
  mkWorld (app w) (option_map f (playerRef w)) (recordedChunks w) (snapshot w)
          (stream w) (recorder w) (listening w) (stopEvent w) (poll w)
          (control w) (trace w).
Definition withChunks v (w : World) : World :=
  mkWorld (app w) (playerRef w) v (snapshot w) (stream w)
          (recorder w) (listening w) (stopEvent w) (poll w) (control w) (trace w).
Definition withSnapshot v (w : World) : World :=
  mkWorld (app w) (playerRef w) (recordedChunks w) v (stream w)
          (recorder w) (listening w) (stopEvent w) (poll w) (control w) (trace w).
Definition withStream v (w : World) : World :=
  mkWorld (app w) (playerRef w) (recordedChunks w) (snapshot w) v
          (recorder w) (listening w) (stopEvent w) (poll w) (control w) (trace w).
Definition withRecorder v (w : World) : World :=
  mkWorld (app w) (playerRef w) (recordedChunks w) (snapshot w) (stream w)
          v (listening w) (stopEvent w) (poll w) (control w) (trace w).
Definition withListening v (w : World) : World :=
  mkWorld (app w) (playerRef w) (recordedChunks w) (snapshot w) (stream w)
          (recorder w) v (stopEvent w) (poll w) (control w) (trace w).
Definition withStopEvent v (w : World) : World :=
  mkWorld (app w) (playerRef w) (recordedChunks w) (snapshot w) (stream w)
          (recorder w) (listening w) v (poll w) (control w) (trace w).
Definition withPoll v (w : World) : World :=
  mkWorld (app w) (playerRef w) (recordedChunks w) (snapshot w) (stream w)
          (recorder w) (listening w) (stopEvent w) v (control w) (trace w).
Definition withControl v (w : World) : World :=
  mkWorld (app w) (playerRef w) (recordedChunks w) (snapshot w) (stream w)
          (recorder w) (listening w) (stopEvent w) (poll w) v (trace w).
Definition emit (a : Action) (w : World) : World :=
  mkWorld (app w) (playerRef w) (recordedChunks w) (snapshot w) (stream w)
          (recorder w) (listening w) (stopEvent w) (poll w) (control w)
          (trace w ++ [a]).

(** A world in which [handleCreateVideo] has not been called. *)
Definition idle (s : AppState) (p : option Player) : World :=
  mkWorld s p [] [] None None false false None Idle [].

(** ** Synchronous code: state and exceptions

    A block of synchronous code changes the world and either returns or
    throws; what it did before throwing stays done. *)

Definition M (A : Type) : Type := World -> World * (Exn + A).

Definition ret {A} (a : A) : M A := fun w => (w, inr a).
Definition throw {A} (e : Exn) : M A := fun w => (w, inl e).
Definition bind {A B} (m : M A) (k : A -> M B) : M B :=
  fun w =>
    match m w with
    | (w', inr a) => k a w'
    | (w', inl e) => (w', inl e)
    end.
Definition act (f : World -> World) : M unit := fun w => (f w, inr tt).
Definition read {A} (f : World -> A) : M A := fun w => (w, inr (f w)).

Notation "x <- m ;; k" := (bind m (fun x => k))
  (at level 61, m at next level, right associativity).
Notation "m ;; k" := (bind m (fun _ => k))
  (at level 61, right associativity).

(** Decimal rendering of [${n}] in a template string. *)
Definition showNat (n : nat) : string := NilEmpty.string_of_uint (Nat.to_uint n).

(** ** Callbacks that cannot throw in this model *)

(** [stream.getTracks().forEach(track => track.stop())], under [if (stream)]. *)
Definition stopTracks (w : World) : World :=
  match stream w with
  | Some tracks =>
      fold_left (fun w i => emit (TrackStop i) w) (seq 0 (List.length tracks))
                (withStream (Some (map S tracks)) w)
  | None => w
  end.

(** [recorder.stop()] on a recording recorder: the state becomes
    [inactive] and the platform queues the [stop] event. *)
Definition recorderStop (w : World) : World :=
  emit RecorderStop (withStopEvent true (withRecorder (Some inactive) w)).

(** [document.removeEventListener('visibilitychange', visibilityHandler)] *)
Definition removeEventListener (w : World) : World :=
  emit RemoveEventListener (withListening false w).

Definition visibilityHandler (visibilityState : Visibility) (w : World) : World :=
  match visibilityState with
  | hidden =>
      let w := match recorder w with
               | Some recording => recorderStop w
               | _ => w
               end in
      let w := stopTracks w in
      let w := removeEventListener w in
      let w := withApp (setError (Some "Recording stopped: you switched away from the tab. Please stay on this tab during the entire recording process.")) w in
      withApp (setIsProcessing false) w
  | visible => w
  end.

(** [recorder.ondataavailable] *)
Definition ondataavailable (data : Blob) (w : World) : World :=
  if 0 <? List.length data then withChunks (recordedChunks w ++ [data]) w else w.

(** [recorder.onstop] *)
Definition onstop (w : World) : World :=
  let w := removeEventListener w in
  let w := if 0 <? List.length (recordedChunks w) then
             let blob := List.concat (recordedChunks w) in
             let w := emit (CreateObjectURL blob) w in
             let w := withApp (setFinishedVideoUrl (Some blob)) w in
             withApp (setProcessingStatus "Done!") w
           else w in
  let w := withApp (setIsProcessing false) w in
  stopTracks w.

(** The callback given to [setInterval] in [playSegment]; [currentTime] is
    what [player.getCurrentTime()] answers when it is asked. *)
Definition intervalCallback (currentTime : number) (w : World) : World :=
  match poll w with
  | Some p =>
      if resolved p then
        emit ClearInterval
             (withPoll (Some (mkPoll (poll_end p) (resolved p) false (settle p))) w)
      else
        let w := emit (GetCurrentTime currentTime) w in
        if Num.ge currentTime (poll_end p) then
          let w := withPoll (Some (mkPoll (poll_end p) true false (settle p))) w in
          let w := emit ClearInterval w in
          let w := emit PauseVideo
                     (withPlayer (fun pl => mkPlayer (muted pl) (volume pl) false) w) in
          emit (SetTimeout 200)
               (withPoll (Some (mkPoll (poll_end p) true false true)) w)
        else w
  | None => w
  end.

(** What [handleCreateVideo] does before its first [await].  The call
    [navigator.mediaDevices.getDisplayMedia(...)] is taken to return its
    promise; the rejection of that promise is an event, below. *)
Definition handleCreateVideo (w : World) : World :=
  if (List.length (clips (app w)) =? 0) ||
     match playerRef w with None => true | Some _ => false end
  then
    withApp (setError (Some "Please add at least one clip.")) w
  else
    let w := withApp (setError None) w in
    let w := withApp (setFinishedVideoUrl None) w in
    let w := withApp (setIsProcessing true) w in
    let w := withApp (setProcessingStatus "Action Required: Please select THIS tab in the screen share prompt.") w in
    let w := withSnapshot (clips (app w)) w in
    let w := withStream None w in
    let w := withRecorder None w in
    let w := emit GetDisplayMedia w in
    withControl AwaitStream w.

(** The [catch] block. *)
Definition errorMessageOf (err : Exn) : string :=
  match err with
  | DOMException name message =>
      if String.eqb name "NotAllowedError" then
        "Permission to share screen was denied. Please try again and grant the necessary permissions."
      else ("Could not start screen capture: " ++ message)%string
  | Error message => ("An error occurred: " ++ message)%string
  | Thrown => "An unknown error occurred during video capture."
  end.

Definition catchBlock (err : Exn) (w : World) : World :=
  let w := removeEventListener w in
  let w := withApp (setError (Some (errorMessageOf err))) w in
  let w := withApp (setIsProcessing false) w in
  withControl Caught w.

(** Run a piece of the [try] block; an exception enters the [catch] block. *)
Definition tryCatch (body : M unit) (w : World) : World :=
  match body w with
  | (w', inr _) => w'
  | (w', inl err) => catchBlock err w'
  end.

(** ** The [try] block

    [formatTime] lives in [./utils/time] and is a parameter; [throws] says
    which platform calls answer with an exception. *)

Section Orchestration.
Variable formatTime : number -> string.
Variable throws : Op -> option Exn.

Definition call (op : Op) : M unit :=
  fun w =>
    match throws op with
    | Some err => (w, inl err)
    | None => (w, inr tt)
    end.

(** The executor of the promise made by [playSegment(player, start, end)]. *)
Definition playSegment (start end_ : number) : M unit :=
  call OpSeekTo ;;
  act (emit (SeekTo start)) ;;
  call OpPlayVideo ;;
  act (withPlayer (fun pl => mkPlayer (muted pl) (volume pl) true)) ;;
  act (emit PlayVideo) ;;
  act (withPoll (Some (mkPoll end_ false true false))) ;;
  act (emit (SetInterval 100)).

(** The loop at index [i], up to the next [await] or to the end of the
    [try] block. *)
Definition iteration (i : nat) : M unit :=
  cs <- read snapshot ;;
  match nth_error cs i with
  | Some clip =>
      act (withApp (setProcessingStatus
             ("Recording clip " ++ showNat (i + 1) ++ " of " ++
              showNat (List.length cs) ++ " (" ++ formatTime (start clip) ++
              " - " ++ formatTime (end_ clip) ++ ")")%string)) ;;
      act (emit (Progress (i + 1) (List.length cs) clip)) ;;
      playSegment (start clip) (end_ clip) ;;
      act (withControl (AwaitSegment i))
  | None =>
      r <- read recorder ;;
      match r with
      | Some recording => act recorderStop
      | _ => ret tt
      end ;;
      act (withControl Completed)
  end.

(** From the fulfilment of [getDisplayMedia] to the first
    [await playSegment]. *)
Definition afterStream (tracks : nat) : M unit :=
  act (withStream (Some (repeat 0 tracks))) ;;
  act (withListening true) ;;
  act (emit AddEventListener) ;;
  call OpMediaRecorder ;;
  act (withRecorder (Some inactive)) ;;
  act (emit NewMediaRecorder) ;;
  act (withChunks []) ;;
  call OpStart ;;
  act (withRecorder (Some recording)) ;;
  act (emit RecorderStart) ;;
  player <- read playerRef ;;
  match player with
  | None => throw (Error "Cannot read properties of null")
  | Some pl =>
      call OpIsMuted ;;
      (if muted pl then
         call OpUnMute ;;
         act (withPlayer (fun pl => mkPlayer false (volume pl) (playing pl))) ;;
         act (emit UnMute)
       else ret tt) ;;
      call OpSetVolume ;;
      act (withPlayer (fun pl => mkPlayer (muted pl) 100 (playing pl))) ;;
      act (emit (SetVolume 100)) ;;
      iteration 0
  end.

(** ** Platform events

    The events this component has a callback for: the settling of the
    [getDisplayMedia] promise, the two timers of [playSegment],
    [visibilitychange], and the recorder's [dataavailable] and [stop].
    A [stop] event is dispatched after [recorder.stop()] was called; a
    stop that the platform brings about on its own (the captured tracks
    ending, a failure of the recorder) is not among the events, and
    neither are the player's own controls. *)

Inductive Event : Type :=
| StreamSettled (r : Exn + nat)     (* getDisplayMedia: rejection, or a
                                       stream with so many tracks *)
| IntervalFires (currentTime : number)
| TimeoutFires
| VisibilityChange (visibilityState : Visibility)
| DataAvailable (data : Blob)
| StopFires.

(** One task of the event loop.  An event nobody waits for changes
    nothing. *)
Definition step (w : World) (e : Event) : World :=
  match e with
  | StreamSettled r =>
      match control w with
      | AwaitStream =>
          tryCatch (match r with
                    | inl err => throw err
                    | inr tracks => afterStream tracks
                    end) w
      | _ => w
      end
  | IntervalFires currentTime =>
      match poll w with
      | Some p => if checkInterval p then intervalCallback currentTime w else w
      | None => w
      end
  | TimeoutFires =>
      match poll w with
      | Some p =>
          if settle p then
            let w := emit Resolve (withPoll None w) in
            match control w with
            | AwaitSegment i => tryCatch (iteration (S i)) w
            | _ => w
            end
          else w
      | None => w
      end
  | VisibilityChange v =>
      if listening w then visibilityHandler v w else w
  | DataAvailable data =>
      match recorder w with
      | Some _ => ondataavailable data w
      | None => w
      end
  | StopFires =>
      if stopEvent w then onstop (withStopEvent false w) else w
  end.

(** A run: the click on "Create & Download Video", then the events. *)
Definition run (s : AppState) (p : option Player) (events : list Event) : World :=
  fold_left step events (handleCreateVideo (idle s p)).
End Orchestration.

(** ** Vocabulary of the statements *)

(** A number that is not [NaN]. *)
Definition numeric (a : number) : Prop := Num.isNaN a = false.
Definition numericStart (c : Clip) : Prop := numeric (start c).

(** [a.start <= b.start], and the clips whose start equals [k]. *)
Definition startLe (a b : Clip) : Prop := Num.le (start a) (start b) = true.
Definition sameStart (k : number) (c : Clip) : bool := Num.eqb (start c) k.

(** Several platform calls in a row. *)
Definition emitAll (l : list Action) (w : World) : World :=
  mkWorld (app w) (playerRef w) (recordedChunks w) (snapshot w) (stream w)
          (recorder w) (listening w) (stopEvent w) (poll w) (control w)
          (trace w ++ l).

(** Interval timers made and cleared so far, and the one that is live. *)
Definition isSetInterval (a : Action) : bool :=
  match a with SetInterval _ => true | _ => false end.
Definition isClearInterval (a : Action) : bool :=
  match a with ClearInterval => true | _ => false end.
Definition timersMade (tr : list Action) : nat :=
  List.length (filter isSetInterval tr).
Definition timersCleared (tr : list Action) : nat :=
  List.length (filter isClearInterval tr).
Definition live (w : World) : nat :=
  match poll w with
  | Some p => if checkInterval p then 1 else 0
  | None => 0
  end.

(** A [playSegment] closure is either sampling or settling. *)
Definition pollShape (p : Poll) : Prop :=
  (resolved p = false /\ checkInterval p = true /\ settle p = false) \/
  (resolved p = true /\ checkInterval p = false /\ settle p = true).

(** What holds of every world a run goes through, whatever the events and
    whatever throws: the timers add up; a registered watcher belongs to a
    run in progress that has its stream; nothing is registered, queued or
    polled before the stream arrives; a closure polls exactly while the
    loop awaits it; and an object URL is there only if a chunk is. *)
Definition Inv (w : World) : Prop :=
  timersCleared (trace w) + live w = timersMade (trace w) /\
  (listening w = true -> isProcessing (app w) = true /\ stream w <> None) /\
  match control w with
  | Idle => poll w = None /\ listening w = false /\ recorder w = None /\
            stopEvent w = false
  | AwaitStream => poll w = None /\ listening w = false /\ recorder w = None /\
                   stopEvent w = false /\ isProcessing (app w) = true /\
                   finishedVideoUrl (app w) = None
  | AwaitSegment _ =>
      (exists p, poll w = Some p /\ pollShape p) /\
      (finishedVideoUrl (app w) = None \/ recordedChunks w <> [])
  | Completed | Caught =>
      poll w = None /\
      (finishedVideoUrl (app w) = None \/ recordedChunks w <> [])
  end.

(** A platform on which no call throws. *)
Definition noThrow : Op -> option Exn := fun _ => None.

(** The calls that make up segment playback, and the order prescribed for
    them over a queue: report, seek, resolve, clip by clip. *)
Definition isSegmentCall (a : Action) : bool :=
  match a with
  | Progress _ _ _ | SeekTo _ | Resolve => true
  | _ => false
  end.
Definition segmentCalls (tr : list Action) : list Action :=
  filter isSegmentCall tr.

Fixpoint scriptFrom (i total : nat) (cs : list Clip) : list Action :=
  match cs with
  | [] => []
  | c :: cs' =>
      Progress (i + 1) total c :: SeekTo (start c) :: Resolve ::
      scriptFrom (S i) total cs'
  end.
Definition script (cs : list Clip) : list Action :=
  scriptFrom 0 (List.length cs) cs.

(** The positions sought, in order. *)
Definition seeks (tr : list Action) : list number :=
  flat_map (fun a => match a with SeekTo t => [t] | _ => [] end) tr.

(** The status text of the loop:
    [`Recording clip ${i + 1} of ${clips.length} (${formatTime(clip.start)} - ${formatTime(clip.end)})`] *)
Definition recordingStatus (formatTime : number -> string)
    (index total : nat) (clip : Clip) : string :=
  ("Recording clip " ++ showNat index ++ " of " ++ showNat total ++ " (" ++
   formatTime (start clip) ++ " - " ++ formatTime (end_ clip) ++ ")")%string.

(** How far the segment calls have got, by the place where the body of
    [handleCreateVideo] stands, whatever throws: the whole script once the
    loop is left at its end, an initial part of it after the [catch]
    block. *)
Definition Sequenced (cs : list Clip) (w : World) : Prop :=
  snapshot w = cs /\
  match control w with
  | Idle => False
  | AwaitStream => poll w = None /\ segmentCalls (trace w) = []
  | AwaitSegment i =>
      exists c, nth_error cs i = Some c /\ poll w <> None /\
        segmentCalls (trace w) =
        scriptFrom 0 (List.length cs) (firstn i cs) ++
        [Progress (i + 1) (List.length cs) c; SeekTo (start c)]
  | Completed => poll w = None /\ segmentCalls (trace w) = script cs
  | Caught =>
      poll w = None /\
      exists rest, script cs = segmentCalls (trace w) ++ rest
  end.

(** The events of the two timers of [playSegment]. *)
Definition isTimer (e : Event) : bool :=
  match e with
  | IntervalFires _ | TimeoutFires => true
  | _ => false
  end.

(** Two worlds in which the loop stands at the same place. *)
Definition sameLoop (w1 w2 : World) : Prop :=
  control w1 = control w2 /\ poll w1 = poll w2 /\ snapshot w1 = snapshot w2.

(** Where the watcher stands on the paths that end a run: after the
    [catch] block it is deregistered and the flag is down; while the loop
    awaits a segment a registered watcher has a recording recorder; and
    when the [try] block was left at its end, a watcher that is still
    registered has the recorder's stop event ahead of it. *)
Definition Watched (w : World) : Prop :=
  match control w with
  | Caught => listening w = false /\ isProcessing (app w) = false
  | Completed => listening w = true -> stopEvent w = true
  | AwaitSegment _ => listening w = true -> recorder w = Some recording
  | _ => True
  end.

(** The world when the loop is entered, the stream having arrived with
    nothing thrown. *)
Definition started (tracks : nat) (w : World) : World :=
  emit (SetVolume 100)
    (withPlayer (fun pl => mkPlayer (muted pl) 100 (playing pl))
       (match playerRef w with
        | Some pl =>
            if muted pl then
              emit UnMute
                (withPlayer (fun pl => mkPlayer false (volume pl) (playing pl))
                   (emit RecorderStart
                      (withRecorder (Some recording)
                         (withChunks []
                            (emit NewMediaRecorder
                               (withRecorder (Some inactive)
                                  (emit AddEventListener
                                     (withListening true
                                        (withStream (Some (repeat 0 tracks)) w)))))))))
            else
              emit RecorderStart
                (withRecorder (Some recording)
                   (withChunks []
                      (emit NewMediaRecorder
                         (withRecorder (Some inactive)
                            (emit AddEventListener
                               (withListening true
                                  (withStream (Some (repeat 0 tracks)) w)))))))
        | None => w
        end)).

(** The two states of a [playSegment] closure: sampling, and waiting for
    the settle delay after the pause. *)
Definition polling (end_ : number) : Poll := mkPoll end_ false true false.
Definition settling (end_ : number) : Poll := mkPoll end_ true false true.

(** The events of one segment on a surface that is sampled at [below]
    (all before the end of the clip) and then at [reached]. *)
Definition segmentEvents (below : list number) (reached : number) : list Event :=
  map IntervalFires below ++ [IntervalFires reached; TimeoutFires].

Definition playthrough (surface : Clip -> list number * number)
    (cs : list Clip) : list Event :=
  flat_map (fun c => segmentEvents (fst (surface c)) (snd (surface c))) cs.

Definition reachesEnd (surface : Clip -> list number * number) (c : Clip) : Prop :=
  Forall (fun t => Num.ge t (end_ c) = false) (fst (surface c)) /\
  Num.ge (snd (surface c)) (end_ c) = true.

Definition numLe (a b : number) : Prop := Num.le a b = true.

(** A world no event can change: nothing is registered, queued or awaited. *)
Definition inert (w : World) : Prop :=
  control w = Idle /\ listening w = false /\ recorder w = None /\
  stopEvent w = false /\ poll w = None.

Definition cancelledMessage : string :=
  "Recording stopped: you switched away from the tab. Please stay on this tab during the entire recording process.".

(** ** Sample data *)

Module Sample.
Definition seconds (n : Z) : number := Num.Fin (inject_Z n).

(** An instance of the time parser on the texts used below. *)
Definition parseTimeToSeconds (text : string) : number :=
  if String.eqb text "0:05" then seconds 5
  else if String.eqb text "0:08" then seconds 8
  else if String.eqb text "0:10" then seconds 10
  else if String.eqb text "0:20" then seconds 20
  else if String.eqb text "0:25" then seconds 25
  else Num.NaN.

Definition formatTime (t : number) : string :=
  match t with
  | Num.Fin q =>
      if Qeq_bool q (inject_Z 5) then "0:05"
      else if Qeq_bool q (inject_Z 10) then "0:10"
      else if Qeq_bool q (inject_Z 20) then "0:20"
      else if Qeq_bool q (inject_Z 25) then "0:25"
      else "0:00"
  | _ => "NaN:NaN"
  end.

Definition first : Clip := mkClip "1700000000001" (seconds 5) (seconds 10).
Definition second : Clip := mkClip "1700000000002" (seconds 20) (seconds 25).

Definition queue : list Clip := [first; second].

Definition state : AppState := mkApp queue "" "" false "" None None.

Definition player : Player := mkPlayer true 50 false.

(** The surface is sampled once before the end of each clip and once at
    its end. *)
Definition surface (c : Clip) : list number * number :=
  ([start c], end_ c).

(** [new MediaRecorder] refuses the MIME type. *)
Definition unsupported (op : Op) : option Exn :=
  match op with
  | OpMediaRecorder =>
      Some (DOMException "NotSupportedError" "mimeType is not supported")
  | _ => None
  end.

(** The player fails when it is unmuted. *)
Definition brokenPlayer (op : Op) : option Exn :=
  match op with
  | OpUnMute => Some (Error "player is gone")
  | _ => None
  end.
End Sample.

(** ** Sample runs *)

Module Runs.
Import Sample.

Definition ready : option Player := Some player.

(** Both clips are played and the recorder delivers no data. *)
Definition noData : list Event :=
  StreamSettled (inr 2) :: playthrough surface queue ++
  [DataAvailable []; StopFires].

(** Both clips are played and the recorder delivers one chunk. *)
Definition oneChunk : list Event :=
  StreamSettled (inr 2) :: playthrough surface queue ++
  [DataAvailable [Byte.x1a; Byte.x45]; StopFires].

(** The first clip has been played to its end and paused; the settle
    delay is running. *)
Definition firstPlayed : list Event :=
  [StreamSettled (inr 2); IntervalFires (seconds 6); IntervalFires (seconds 10)].

(** The tab is hidden during that delay; then the delay elapses and the
    recorder's stop event is handled. *)
Definition hiddenAfterFirst : list Event :=
  firstPlayed ++ [VisibilityChange hidden; TimeoutFires; StopFires].

(** The tab is hidden while the first clip is playing. *)
Definition hiddenDuringFirst : list Event :=
  [StreamSettled (inr 2); IntervalFires (seconds 6);
   VisibilityChange hidden; StopFires].
End Runs.

(** A run that ended in the [catch] block with nothing registered, queued
    or awaited any more. *)
Definition abandoned (w : World) : Prop :=
  control w = Caught /\ listening w = false /\ stopEvent w = false /\
  poll w = None.

(** ** Vocabulary of the further statements *)

(** How often a kind of platform call was made. *)
Definition count (kind : Action -> bool) (tr : list Action) : nat :=
  List.length (filter kind tr).

Definition isGetDisplayMedia (a : Action) : bool :=
  match a with GetDisplayMedia => true | _ => false end.
Definition isAddEventListener (a : Action) : bool :=
  match a with AddEventListener => true | _ => false end.
Definition isNewMediaRecorder (a : Action) : bool :=
  match a with NewMediaRecorder => true | _ => false end.
Definition isRecorderStart (a : Action) : bool :=
  match a with RecorderStart => true | _ => false end.
Definition isRecorderStop (a : Action) : bool :=
  match a with RecorderStop => true | _ => false end.
Definition isCreateObjectURL (a : Action) : bool :=
  match a with CreateObjectURL _ => true | _ => false end.
Definition isResolve (a : Action) : bool :=
  match a with Resolve => true | _ => false end.
Definition isPauseVideo (a : Action) : bool :=
  match a with PauseVideo => true | _ => false end.

(** The platform resources of a run, by the state of the recorder: what
    was requested, registered, made, started, stopped and produced. *)
Definition Resources (w : World) : Prop :=
  count isGetDisplayMedia (trace w) =
    match control w with Idle => 0 | _ => 1 end /\
  count isAddEventListener (trace w) <= 1 /\
  (listening w = true -> count isAddEventListener (trace w) = 1) /\
  match recorder w with
  | None =>
      count isNewMediaRecorder (trace w) = 0 /\
      count isRecorderStart (trace w) = 0 /\
      count isRecorderStop (trace w) = 0 /\
      count isCreateObjectURL (trace w) = 0 /\
      stopEvent w = false
  | Some recording =>
      count isNewMediaRecorder (trace w) = 1 /\
      count isRecorderStart (trace w) = 1 /\
      count isRecorderStop (trace w) = 0 /\
      count isCreateObjectURL (trace w) = 0 /\
      stopEvent w = false
  | Some inactive =>
      count isNewMediaRecorder (trace w) = 1 /\
      count isRecorderStart (trace w) <= 1 /\
      count isRecorderStop (trace w) <= count isRecorderStart (trace w) /\
      count isCreateObjectURL (trace w) + (if stopEvent w then 1 else 0)
        <= count isRecorderStop (trace w)
  end /\
  match control w with
  | Idle | AwaitStream =>
      recorder w = None /\ count isAddEventListener (trace w) = 0
  | _ => True
  end.

(** The player is unmuted and at full volume. *)
Definition audible (w : World) : bool :=
  match playerRef w with
  | Some pl => negb (muted pl) && (volume pl =? 100)
  | None => false
  end.

(** The promises of [playSegment]: every closure made has resolved or is
    still there, and the player was paused once for each that resolved or
    is settling; the loop runs on an audible player. *)
Definition Surface (w : World) : Prop :=
  count isResolve (trace w) + match poll w with Some _ => 1 | None => 0 end
    = timersMade (trace w) /\
  count isPauseVideo (trace w) =
    count isResolve (trace w) +
    match poll w with
    | Some p => if settle p then 1 else 0
    | None => 0
    end /\
  match control w with
  | AwaitSegment _ | Completed => audible w = true
  | _ => True
  end.

(** Reading the calls of a run from the left: [Some true] once
    [setVolume(100)] was called, [Some false] before that, and [None] if a
    position was sought before it. *)
Definition volumeThenSeek (seen : option bool) (a : Action) : option bool :=
  match a with
  | SetVolume v =>
      if v =? 100 then match seen with Some _ => Some true | None => None end
      else seen
  | SeekTo _ => match seen with Some false => None | _ => seen end
  | _ => seen
  end.

(** The volume is set before the loop is entered, and no position is
    sought before the volume is set. *)
Definition VolumeFirst (w : World) : Prop :=
  match fold_left volumeThenSeek (trace w) (Some false) with
  | Some true => True
  | Some false =>
      match control w with
      | AwaitSegment _ | Completed => False
      | _ => True
      end
  | None => False
  end.

(** [stop()] was called on every track of the stream. *)
Definition released (w : World) : bool :=
  match stream w with
  | Some tracks => forallb (fun stops => 1 <=? stops) tracks
  | None => false
  end.

(** Once the loop was entered there is a stream, and when the processing
    flag is down outside the [catch] block its tracks are released. *)
Definition Teardown (w : World) : Prop :=
  match control w with
  | AwaitSegment _ | Completed =>
      stream w <> None /\ (isProcessing (app w) = false -> released w = true)
  | _ => True
  end.

(** An event that is not a sample at or past [end_]. *)
Definition beforeEnd (end_ : number) (e : Event) : Prop :=
  forall t, e = IntervalFires t -> Num.ge t end_ = false.

(** [event.data.size > 0] *)
Definition hasData (data : Blob) : bool := 0 <? List.length data.

(** ** The rest of the component: video, queue editing, saving

    The state cells that [AppState] leaves out, the pending timers that
    clear the save status, and the item of [localStorage] under
    [LOCAL_STORAGE_KEY]. *)

Record Editor : Type := mkEditor {
  form : AppState;
  url : string;
  videoId : option string;
  saveStatus : string;
  saveTimers : nat;                 (* setTimeout(() => setSaveStatus(''), 2000) *)
  localStorage : option string
}.

Definition withForm (f : AppState -> AppState) (e : Editor) : Editor :=
  mkEditor (f (form e)) (url e) (videoId e) (saveStatus e) (saveTimers e)
           (localStorage e).
Definition setUrl v (e : Editor) : Editor :=
  mkEditor (form e) v (videoId e) (saveStatus e) (saveTimers e) (localStorage e).
Definition setVideoId v (e : Editor) : Editor :=
  mkEditor (form e) (url e) v (saveStatus e) (saveTimers e) (localStorage e).
Definition setSaveStatus v (e : Editor) : Editor :=
  mkEditor (form e) (url e) (videoId e) v (saveTimers e) (localStorage e).
Definition withSaveTimers v (e : Editor) : Editor :=
  mkEditor (form e) (url e) (videoId e) (saveStatus e) v (localStorage e).
Definition setItem v (e : Editor) : Editor :=
  mkEditor (form e) (url e) (videoId e) (saveStatus e) (saveTimers e) (Some v).

(** Truthiness of a [string | null]. *)
Definition truthy (v : option string) : bool :=
  match v with
  | Some text => negb (String.eqb text "")
  | None => false
  end.

(** [clips.filter(clip => clip.id !== id)] *)
Definition handleRemoveClip (removed : string) (s : AppState) : AppState :=
  setClips (filter (fun clip => negb (String.eqb (id clip) removed)) (clips s)) s.

(** ['start' | 'end'] *)
Inductive TimeField : Type := startField | endField.

Section EditorHandlers.
(** [extractVideoId] lives in [./utils/youtube], the time functions in
    [./utils/time]: parameters.  [stringify videoId clips] is
    [JSON.stringify({ videoId, clips })], and [storageThrows data] says
    whether [localStorage.setItem] refuses [data]. *)
Variable extractVideoId : string -> option string.
Variable parseTimeToSeconds : string -> number.
Variable formatTime : number -> string.
Variable stringify : option string -> list Clip -> string.
Variable storageThrows : string -> option Exn.

Definition handleLoadVideo (e : Editor) : Editor :=
  let e := withForm (setError None) e in
  let e := withForm (setFinishedVideoUrl None) e in
  let id := extractVideoId (url e) in
  if truthy id then
    let e := setVideoId id e in
    withForm (setClips []) e
  else
    withForm (setError (Some "Invalid YouTube URL. Please enter a valid URL.")) e.

Definition handleSaveClips (e : Editor) : Editor :=
  if negb (truthy (videoId e)) || (List.length (clips (form e)) =? 0) then
    withForm (setError (Some "There are no clips to save for this video.")) e
  else
    let dataToSave := stringify (videoId e) (clips (form e)) in
    match storageThrows dataToSave with
    | None =>
        let e := setItem dataToSave e in
        let e := setSaveStatus "Saved!" e in
        withSaveTimers (S (saveTimers e)) e
    | Some _ =>
        withForm (setError (Some "Could not save clips. Your browser's storage might be full.")) e
    end.

(** The callback of that timeout. *)
Definition saveStatusTimeout (e : Editor) : Editor :=
  match saveTimers e with
  | S n => withSaveTimers n (setSaveStatus "" e)
  | 0 => e
  end.

(** [currentTime] is what [playerRef.current.getCurrentTime()] answers. *)
Definition handleSetTimeFromPlayer (playerRef : option Player)
    (currentTime : number) (type : TimeField) (s : AppState) : AppState :=
  match playerRef with
  | None => setError (Some "Player not available. Please load a video first.") s
  | Some _ =>
      let formattedTime := formatTime currentTime in
      match type with
      | startField => setStartTime formattedTime s
      | endField => setEndTime formattedTime s
      end
  end.

(** What the user can do to the editor. *)
Inductive UserAction : Type :=
| TypeUrl (text : string)                       (* onChange of the inputs *)
| TypeStartTime (text : string)
| TypeEndTime (text : string)
| ClickLoadVideo
| ClickAddClip (now : string)
| ClickRemoveClip (removed : string)
| ClickSaveClips
| ClickSetTime (playerRef : option Player) (currentTime : number)
               (type : TimeField)
| ClickDismiss                                  (* setError(null) *)
| SaveStatusTimeout.

Definition perform (e : Editor) (a : UserAction) : Editor :=
  match a with
  | TypeUrl text => setUrl text e
  | TypeStartTime text => withForm (setStartTime text) e
  | TypeEndTime text => withForm (setEndTime text) e
  | ClickLoadVideo => handleLoadVideo e
  | ClickAddClip now => withForm (handleAddClip parseTimeToSeconds now) e
  | ClickRemoveClip removed => withForm (handleRemoveClip removed) e
  | ClickSaveClips => handleSaveClips e
  | ClickSetTime playerRef currentTime type =>
      withForm (handleSetTimeFromPlayer playerRef currentTime type) e
  | ClickDismiss => withForm (setError None) e
  | SaveStatusTimeout => saveStatusTimeout e
  end.
End EditorHandlers.

(** A clip as the data model wants it, and a queue of such clips in
    ascending order of start. *)
Definition validClip (c : Clip) : Prop := Num.lt (start c) (end_ c) = true.
Definition queueOK (q : list Clip) : Prop :=
  StronglySorted startLe q /\ Forall validClip q.

(** The save status has a timer to clear it, and what is stored is the
    text of a video with a non-empty queue. *)
Definition SaveOK (stringify : option string -> list Clip -> string)
    (e : Editor) : Prop :=
  (saveStatus e = "" \/ (saveStatus e = "Saved!" /\ 0 < saveTimers e)) /\
  (localStorage e = None \/
   exists v q, truthy v = true /\ q <> [] /\
               localStorage e = Some (stringify v q)).

Module SampleEditor.
Definition extractVideoId (text : string) : option string :=
  if String.eqb text "https://www.youtube.com/watch?v=dQw4w9WgXcQ"
  then Some "dQw4w9WgXcQ"
  else if String.eqb text "https://www.youtube.com/watch?v=" then Some ""
  else None.

Definition stringify (v : option string) (q : list Clip) : string :=
  match v with
  | Some text => (text ++ ":" ++ showNat (List.length q))%string
  | None => "null"
  end.


Definition storageFree (data : string) : option Exn := None.

Definition editor : Editor :=
  mkEditor Sample.state "https://www.youtube.com/watch?v=dQw4w9WgXcQ"
           (Some "dQw4w9WgXcQ") "" 0 None.
End SampleEditor.

(** A run in which the stream arrived with [tracks] tracks and nothing
    but the timers of [playSegment] has fired since. *)
Definition Undisturbed (tracks : nat) (w : World) : Prop :=
  error (app w) = None /\ isProcessing (app w) = true /\
  finishedVideoUrl (app w) = None /\ listening w = true /\
  stream w = Some (repeat 0 tracks) /\ recordedChunks w = [] /\
  match control w with
  | AwaitSegment _ => recorder w = Some recording /\ stopEvent w = false
  | Completed => recorder w = Some inactive /\ stopEvent w = true
  | _ => False
  end.

(** * Facts *)

(** ** Numbers *)

Lemma Qcompare_sub_0 (x y : Q) : (x - y ?= 0)%Q = (x ?= y)%Q.
Proof.
  destruct (Qcompare_spec x y) as [H|H|H].
  - apply (proj1 (Qeq_alt _ _)). lra.
  - apply (proj1 (Qlt_alt _ _)). lra.
  - apply (proj1 (Qgt_alt _ _)). lra.
Qed.

Lemma sign_sub (a b : number) :
  numeric a -> numeric b -> Some (Num.sign (Num.sub a b)) = Num.compare a b.
Proof.
  unfold numeric.
  destruct a, b; simpl; intros; try discriminate; try reflexivity.
  now rewrite Qcompare_sub_0.
Qed.

Lemma compare_refl a : numeric a -> Num.compare a a = Some Eq.
Proof.
  destruct a; simpl; unfold numeric; simpl; intros;
    try discriminate; try reflexivity.
  f_equal. apply (proj1 (Qeq_alt _ _)). reflexivity.
Qed.

Lemma le_trans a b c :
  Num.le a b = true -> Num.le b c = true -> Num.le a c = true.
Proof.
  unfold Num.le.
  destruct a, b, c; simpl; try reflexivity; try discriminate.
  destruct (Qcompare_spec q q0), (Qcompare_spec q0 q1), (Qcompare_spec q q1);
    intros; try reflexivity; try discriminate; exfalso; lra.
Qed.

Lemma eqb_trans_sym a b k :
  Num.eqb a k = true -> Num.eqb b k = true -> Num.compare a b = Some Eq.
Proof.
  unfold Num.eqb.
  destruct a, b, k; simpl; try reflexivity; try discriminate.
  destruct (Qcompare_spec q q1), (Qcompare_spec q0 q1); intros; try discriminate.
  f_equal. apply (proj1 (Qeq_alt _ _)). lra.
Qed.

(** ** The clip queue *)

Lemma byStart_Gt a b :
  numericStart a -> numericStart b ->
  Num.sign (byStart a b) = Gt -> startLe b a.
Proof.
  intros Ha Hb H. pose proof (sign_sub _ _ Ha Hb) as E.
  unfold byStart in H. rewrite H in E. unfold startLe, Num.le.
  destruct (start a), (start b); simpl in *; try discriminate; try reflexivity.
  injection E as E. symmetry in E. apply (proj2 (Qgt_alt _ _)) in E.
  destruct (Qcompare_spec q0 q); try reflexivity. lra.
Qed.

Lemma byStart_not_Gt a b :
  numericStart a -> numericStart b ->
  Num.sign (byStart a b) <> Gt -> startLe a b.
Proof.
  intros Ha Hb H. pose proof (sign_sub _ _ Ha Hb) as E.
  unfold byStart in H. unfold startLe, Num.le. rewrite <- E.
  destruct (Num.sign (Num.sub (start a) (start b))); congruence.
Qed.

Lemma sameStart_tie k a b :
  sameStart k a = true -> sameStart k b = true -> Num.sign (byStart a b) = Eq.
Proof.
  intros Ha Hb. pose proof (eqb_trans_sym _ _ _ Ha Hb) as E.
  assert (Na : numericStart a)
    by (unfold sameStart, Num.eqb in Ha; unfold numericStart, numeric;
        destruct (start a); simpl in *; congruence).
  assert (Nb : numericStart b)
    by (unfold sameStart, Num.eqb in Hb; unfold numericStart, numeric;
        destruct (start b); simpl in *; congruence).
  pose proof (sign_sub _ _ Na Nb) as S. unfold byStart. congruence.
Qed.

Lemma insert_perm {A} (f : A -> A -> number) x l : Permutation (x :: l) (insert f x l).
Proof.
  induction l as [|y l IH]; simpl; [reflexivity|].
  destruct (Num.sign (f x y)); try reflexivity.
  rewrite perm_swap. now apply perm_skip.
Qed.

Lemma sort_perm {A} (f : A -> A -> number) l : Permutation l (sort f l).
Proof.
  induction l as [|x l IH]; simpl; [constructor|].
  rewrite <- insert_perm. now apply perm_skip.
Qed.

Lemma sort_numeric l : Forall numericStart l -> Forall numericStart (sort byStart l).
Proof. intros H. eapply Permutation_Forall; [apply sort_perm | exact H]. Qed.

Lemma insert_sorted x l :
  numericStart x -> Forall numericStart l ->
  StronglySorted startLe l -> StronglySorted startLe (insert byStart x l).
Proof.
  intros Nx Nl Hs. induction Hs as [|y l Hs IH Hy]; simpl.
  - repeat constructor.
  - inversion Nl as [|? ? Ny Nl']; subst.
    destruct (Num.sign (byStart x y)) eqn:E.
    + constructor; [now constructor|].
      assert (L : startLe x y) by (apply byStart_not_Gt; congruence).
      constructor; [exact L|].
      eapply Forall_impl; [|exact Hy]. intros z Hz.
      unfold startLe in *. eapply le_trans; eauto.
    + constructor; [now constructor|].
      assert (L : startLe x y) by (apply byStart_not_Gt; congruence).
      constructor; [exact L|].
      eapply Forall_impl; [|exact Hy]. intros z Hz.
      unfold startLe in *. eapply le_trans; eauto.
    + constructor; [now apply IH|].
      eapply Permutation_Forall; [apply insert_perm|].
      constructor; [now apply byStart_Gt | exact Hy].
Qed.

Lemma sort_sorted l : Forall numericStart l -> StronglySorted startLe (sort byStart l).
Proof.
  induction 1 as [|x l Nx Nl IH]; simpl; [constructor|].
  apply insert_sorted; auto using sort_numeric.
Qed.

Lemma insert_stable k x l :
  filter (sameStart k) (insert byStart x l) = filter (sameStart k) (x :: l).
Proof.
  induction l as [|y l IH]; [reflexivity|].
  simpl. destruct (Num.sign (byStart x y)) eqn:E; try reflexivity.
  simpl. rewrite IH. simpl.
  destruct (sameStart k x) eqn:Ex, (sameStart k y) eqn:Ey; try reflexivity.
  rewrite (sameStart_tie _ _ _ Ex Ey) in E. discriminate.
Qed.

Lemma sort_stable k l : filter (sameStart k) (sort byStart l) = filter (sameStart k) l.
Proof.
  induction l as [|x l IH]; [reflexivity|].
  simpl sort. rewrite insert_stable. simpl. now rewrite IH.
Qed.

Lemma sameStart_refl c : numericStart c -> sameStart (start c) c = true.
Proof. intros H. unfold sameStart, Num.eqb. now rewrite compare_refl. Qed.

Lemma startLe_antisym a b : startLe a b -> startLe b a -> sameStart (start a) b = true.
Proof.
  unfold startLe, sameStart, Num.le, Num.eqb.
  destruct (start a), (start b); simpl; try discriminate; try reflexivity.
  destruct (Qcompare_spec q q0), (Qcompare_spec q0 q); intros;
    try discriminate; try reflexivity; exfalso; lra.
Qed.

(** Two sorted lists that hold the same clips of every start, in the same
    order, are equal: a stable sort has one possible result. *)
Lemma stable_sorted_unique l1 l2 :
  Forall numericStart l1 -> Forall numericStart l2 ->
  StronglySorted startLe l1 -> StronglySorted startLe l2 ->
  (forall k, filter (sameStart k) l1 = filter (sameStart k) l2) ->
  l1 = l2.
Proof.
  intros N1. revert l2. induction N1 as [|a l1 Na N1 IH]; intros l2 N2 S1 S2 H.
  - destruct l2 as [|b l2]; [reflexivity|]. exfalso.
    inversion N2; subst. specialize (H (start b)). simpl in H.
    rewrite sameStart_refl in H by assumption. discriminate.
  - destruct l2 as [|b l2].
    + exfalso. specialize (H (start a)). simpl in H.
      rewrite sameStart_refl in H by assumption. discriminate.
    + inversion N2 as [|? ? Nb N2']; subst.
      inversion S1 as [|? ? S1' F1]; subst. inversion S2 as [|? ? S2' F2]; subst.
      assert (a = b) as ->.
      { pose proof (H (start a)) as Ha. simpl in Ha.
        rewrite sameStart_refl in Ha by assumption.
        destruct (sameStart (start a) b) eqn:Eb; [congruence|].
        exfalso.
        assert (Ia : In a l2).
        { assert (I : In a (filter (sameStart (start a)) l2))
            by (rewrite <- Ha; now left).
          apply filter_In in I. tauto. }
        pose proof (H (start b)) as Hb. simpl in Hb.
        rewrite (sameStart_refl b) in Hb by assumption.
        assert (Ib : In b (a :: l1)).
        { assert (I : In b (filter (sameStart (start b)) (a :: l1)))
            by (simpl; rewrite Hb; now left).
          apply filter_In in I. tauto. }
        assert (Lba : startLe b a) by (rewrite Forall_forall in F2; auto).
        destruct Ib as [->|Ib]; [rewrite sameStart_refl in Eb by assumption; discriminate|].
        assert (Lab : startLe a b) by (rewrite Forall_forall in F1; auto).
        rewrite (startLe_antisym _ _ Lab Lba) in Eb. discriminate. }
      f_equal. apply IH; trivial.
      intros k. specialize (H k). simpl in H.
      destruct (sameStart k b); congruence.
Qed.

(** So whatever algorithm the engine uses, on clips with numeric starts it
    returns what [sort byStart] returns. *)
Lemma sort_unique l l' :
  Forall numericStart l -> Forall numericStart l' ->
  StronglySorted startLe l' ->
  (forall k, filter (sameStart k) l' = filter (sameStart k) l) ->
  l' = sort byStart l.
Proof.
  intros N N' S' H. apply stable_sorted_unique; trivial.
  - now apply sort_numeric.
  - now apply sort_sorted.
  - intros k. now rewrite sort_stable.
Qed.

Section ClipQueueFacts.
Variable parseTimeToSeconds : string -> number.

Lemma lt_numeric a b :
  Num.lt a b = true -> numeric a /\ numeric b /\ Num.ge a b = false.
Proof.
  unfold Num.lt, Num.ge, numeric.
  destruct a, b; simpl; try discriminate; auto.
  destruct (q ?= q0)%Q; try discriminate; auto.
Qed.

(** C7.  When the parsed times are numbers with start < end, and the
    starts already in the queue are numbers, the queue after
    [handleAddClip] is sorted ascending by start, holds exactly the old
    clips and the new one, and keeps the clips of equal start in the order
    of the old queue followed by the new clip. *)
Theorem handleAddClip_sorted_stable (now : string) (s : AppState) :
  Num.lt (parseTimeToSeconds (startTime s)) (parseTimeToSeconds (endTime s)) = true ->
  Forall numericStart (clips s) ->
  let newClip := mkClip now (parseTimeToSeconds (startTime s))
                            (parseTimeToSeconds (endTime s)) in
  let queue := clips (handleAddClip parseTimeToSeconds now s) in
  StronglySorted startLe queue /\
  Permutation (clips s ++ [newClip]) queue /\
  (forall k, filter (sameStart k) queue = filter (sameStart k) (clips s ++ [newClip])) /\
  Forall numericStart queue.
Proof.
  intros Hlt Hq newClip queue.
  destruct (lt_numeric _ _ Hlt) as (Na & Nb & Hge).
  assert (E : queue = sort byStart (clips s ++ [newClip])).
  { unfold queue, handleAddClip. simpl. rewrite Hge.
    unfold numeric in Na, Nb. rewrite Na, Nb. reflexivity. }
  assert (N : Forall numericStart (clips s ++ [newClip])).
  { apply Forall_app. split; [exact Hq|]. repeat constructor. exact Na. }
  rewrite E. repeat split.
  - now apply sort_sorted.
  - apply sort_perm.
  - intros k. apply sort_stable.
  - now apply sort_numeric.
Qed.

(** C8.  When a parsed time is not a number, or start >= end,
    [handleAddClip] only sets an error message: the clip queue and every
    other field of the state stay as they were. *)
Theorem handleAddClip_rejects (now : string) (s : AppState) :
  Num.isNaN (parseTimeToSeconds (startTime s)) = true \/
  Num.isNaN (parseTimeToSeconds (endTime s)) = true \/
  Num.ge (parseTimeToSeconds (startTime s)) (parseTimeToSeconds (endTime s)) = true ->
  exists message,
    handleAddClip parseTimeToSeconds now s = setError (Some message) s /\
    clips (handleAddClip parseTimeToSeconds now s) = clips s.
Proof.
  intros H. unfold handleAddClip. simpl.
  destruct (Num.ge _ _) eqn:G.
  - eexists; split; reflexivity.
  - destruct H as [H|[H|H]]; try congruence; rewrite H, ?orb_true_r; simpl;
      eexists; split; reflexivity.
Qed.
End ClipQueueFacts.

Lemma handleAddClip_sorted_stable_witness :
  let s := setEndTime "0:08" (setStartTime "0:05" Sample.state) in
  let added := mkClip "1700000000003" (Sample.seconds 5) (Sample.seconds 8) in
  (Num.lt (Sample.parseTimeToSeconds (startTime s))
          (Sample.parseTimeToSeconds (endTime s)) = true /\
   Forall numericStart (clips s)) /\
  clips (handleAddClip Sample.parseTimeToSeconds "1700000000003" s) =
  [Sample.first; added; Sample.second] /\
  StronglySorted startLe
    (clips (handleAddClip Sample.parseTimeToSeconds "1700000000003" s)).
Proof.
  intros s added.
  assert (N : Forall numericStart (clips s)) by (repeat constructor).
  split; [split; [reflexivity|exact N]|].
  split; [reflexivity|].
  apply (handleAddClip_sorted_stable Sample.parseTimeToSeconds "1700000000003" s
           eq_refl N).
Defined.

Lemma handleAddClip_rejects_witness :
  let s := setEndTime "0:05" (setStartTime "0:10" Sample.state) in
  (Num.isNaN (Sample.parseTimeToSeconds (startTime s)) = true \/
   Num.isNaN (Sample.parseTimeToSeconds (endTime s)) = true \/
   Num.ge (Sample.parseTimeToSeconds (startTime s))
          (Sample.parseTimeToSeconds (endTime s)) = true) /\
  exists message,
    handleAddClip Sample.parseTimeToSeconds "1700000000003" s =
    setError (Some message) s /\
    clips (handleAddClip Sample.parseTimeToSeconds "1700000000003" s) = clips s.
Proof.
  intros s. split; [right; right; reflexivity|].
  apply (handleAddClip_rejects Sample.parseTimeToSeconds "1700000000003" s).
  right; right; reflexivity.
Defined.

(** ** Invariants of a run *)

Lemma forEach_emit (f : nat -> Action) (l : list nat) (w : World) :
  fold_left (fun w i => emit (f i) w) l w = emitAll (map f l) w.
Proof.
  revert w. induction l as [|i l IH]; intros w; simpl.
  - destruct w. unfold emitAll. simpl. now rewrite app_nil_r.
  - rewrite IH. unfold emitAll, emit. simpl. now rewrite <- app_assoc.
Qed.

Lemma stopTracks_eq (w : World) :
  stopTracks w =
  match stream w with
  | Some tracks =>
      emitAll (map TrackStop (seq 0 (List.length tracks)))
              (withStream (Some (map S tracks)) w)
  | None => w
  end.
Proof. unfold stopTracks. destruct (stream w); [apply forEach_emit | reflexivity]. Qed.

Lemma filter_stops (f : Action -> bool) l :
  (forall i, f (TrackStop i) = false) -> filter f (map TrackStop l) = [].
Proof. intros H. induction l; simpl; rewrite ?H; auto. Qed.

Lemma app_cons_not_nil_r {A} (l : list A) (x : A) : l ++ [x] <> [].
Proof. destruct l; discriminate. Qed.

Ltac count_timers :=
  unfold timersMade, timersCleared in *;
  repeat rewrite filter_app; repeat rewrite length_app;
  rewrite ?filter_stops by reflexivity;
  cbn; try lia.

Ltac case_split :=
  match goal with
  | |- context [match ?x with _ => _ end] => is_var x; destruct x
  | |- context [match ?f ?o with _ => _ end] => is_var f; destruct (f o) eqn:?
  | |- context [if muted ?p then _ else _] => destruct (muted p) eqn:?
  | |- context [match nth_error ?l ?i with _ => _ end] => destruct (nth_error l i) eqn:?
  | |- context [if Num.ge ?a ?b then _ else _] => destruct (Num.ge a b) eqn:?
  | |- context [if ?a <? ?b then _ else _] => destruct (a <? b) eqn:?
  end.

Ltac settle_inv :=
  unfold Inv, live, pollShape in *; cbn in *;
  repeat match goal with
         | H : _ /\ _ |- _ => destruct H
         | H : exists _, _ |- _ => destruct H
         | H : _ \/ _ |- _ => destruct H
         end;
  try discriminate; subst;
  repeat split; intros; try discriminate; try congruence; try tauto; count_timers;
  try (eexists; split; [reflexivity|]; cbn; tauto);
  try solve [left; assumption || reflexivity];
  try solve [right; assumption || discriminate];
  try solve [right; apply app_cons_not_nil_r].

Ltac unpack :=
  repeat match goal with
         | H : _ /\ _ |- _ => destruct H
         | H : exists _, _ |- _ => destruct H
         | H : _ \/ _ |- _ => destruct H
         | H : context [match ?x with _ => _ end] |- _ => is_var x; destruct x
         | H : Some _ = Some _ |- _ => injection H as H
         end;
  try discriminate; subst.

Ltac tally :=
  unfold count, timersMade, timersCleared in *;
  repeat rewrite filter_app; repeat rewrite length_app;
  rewrite ?filter_stops by reflexivity;
  cbn; try lia.

(** Case analysis on one task of the event loop; [fin] closes the leaves. *)
Ltac by_event w e fin :=
  destruct w as [a pr ch sn st rc li se po co tr];
  destruct e as [r|t| |v|d| ];
  [ cbn in *; destruct co; cbn in *; try (solve [fin]);
    destruct r as [err|n]; unfold tryCatch; cbn; try (solve [fin]);
    unfold afterStream, iteration, playSegment, call, bind, act, read, ret, throw;
    cbn; repeat (case_split; cbn); fin
  | cbn in *; destruct po as [[pe rs ci sl]|]; [|fin];
    destruct ci; [|fin];
    unfold intervalCallback; cbn;
    repeat (case_split; cbn); fin
  | cbn in *; destruct po as [[pe rs ci sl]|]; [|fin];
    destruct sl; [|fin]; cbn;
    destruct co; try (solve [fin]);
    unfold tryCatch, iteration, playSegment, call, bind, act, read, ret, throw;
    cbn; repeat (case_split; cbn); fin
  | cbn in *; destruct li; [|fin];
    unfold visibilityHandler; destruct v; [fin|];
    rewrite stopTracks_eq; unfold recorderStop;
    destruct rc as [[]|], st; cbn; fin
  | cbn in *; destruct rc; [|fin];
    unfold ondataavailable; cbn; destruct d; fin
  | cbn in *; destruct se; [|fin];
    unfold onstop; rewrite stopTracks_eq; cbn;
    destruct ch, st; cbn; fin ].

Ltac use_hyps :=
  repeat match goal with
         | H : true = true -> _ |- _ => specialize (H eq_refl)
         | H : ?P -> _, H' : ?P |- _ => specialize (H H')
         end.

Section OrchestrationFacts.
Variable formatTime : number -> string.
Variable throws : Op -> option Exn.

Lemma handleCreateVideo_Inv s p : Inv (handleCreateVideo (idle s p)).
Proof.
  unfold handleCreateVideo, Inv. simpl.
  destruct (_ || _); simpl; repeat split; auto; discriminate.
Qed.

Lemma step_Inv w e : Inv w -> Inv (step formatTime throws w e).
Proof.
  destruct w as [a pr ch sn st rc li se po co tr].
  unfold Inv. cbn. intros (Hc & Hl & Hk).
  destruct e as [r|t| |v|d| ]; cbn.
  - destruct co; cbn; auto.
    destruct Hk as (-> & -> & -> & -> & Hp & Hu).
    destruct r as [err|n]; unfold tryCatch; cbn.
    + settle_inv.
    + unfold afterStream, iteration, playSegment, call, bind, act, read, ret, throw; cbn.
      repeat (case_split; cbn; try solve [settle_inv]).
  - destruct po as [[pe rs ci sl]|]; [|settle_inv].
    destruct ci; [|settle_inv].
    unfold intervalCallback. cbn.
    destruct co; try solve [settle_inv].
    destruct Hk as ((p0 & [= <-] & Hs) & Hu).
    repeat (case_split; cbn; try solve [settle_inv]).
  - destruct po as [[pe rs ci sl]|]; [|settle_inv].
    destruct sl; [|settle_inv]. cbn.
    destruct co; try solve [settle_inv].
    destruct Hk as ((p0 & [= <-] & Hs) & Hu).
    unfold tryCatch, iteration, playSegment, call, bind, act, read, ret, throw; cbn.
    repeat (case_split; cbn; try solve [settle_inv]).
  - destruct li; [|settle_inv].
    unfold visibilityHandler. destruct v; [settle_inv|].
    destruct (Hl eq_refl) as [Hp Hst].
    destruct st as [ts|]; [|congruence].
    rewrite stopTracks_eq. unfold recorderStop.
    destruct rc as [[]|], co; cbn; settle_inv.
  - destruct rc; [|settle_inv]. unfold ondataavailable. cbn.
    destruct d, co; settle_inv.
  - destruct se; [|settle_inv]. unfold onstop.
    rewrite stopTracks_eq. cbn.
    destruct ch, st, co; cbn; settle_inv.
Qed.
End OrchestrationFacts.

(** ** Sequencing *)

Lemma scriptFrom_app i n l1 l2 :
  scriptFrom i n (l1 ++ l2) = scriptFrom i n l1 ++ scriptFrom (i + List.length l1) n l2.
Proof.
  revert i. induction l1 as [|c l1 IH]; intros i; simpl.
  - now rewrite Nat.add_0_r.
  - rewrite IH. now replace (S i + List.length l1) with (i + S (List.length l1)) by lia.
Qed.

Lemma firstn_snoc {A} (l : list A) i c :
  nth_error l i = Some c -> firstn (S i) l = firstn i l ++ [c].
Proof.
  revert i. induction l as [|x l IH]; intros [|i] H; simpl in *; try discriminate.
  - now injection H as ->.
  - f_equal. now apply IH.
Qed.

Lemma scriptFrom_next n cs i c :
  nth_error cs i = Some c ->
  scriptFrom 0 n (firstn (S i) cs) =
  scriptFrom 0 n (firstn i cs) ++ [Progress (i + 1) n c; SeekTo (start c); Resolve].
Proof.
  intros H. rewrite (firstn_snoc _ _ _ H), scriptFrom_app. simpl.
  rewrite length_firstn, Nat.min_l; [reflexivity|].
  apply Nat.lt_le_incl. apply nth_error_Some. congruence.
Qed.

Lemma segmentCalls_app l1 l2 : segmentCalls (l1 ++ l2) = segmentCalls l1 ++ segmentCalls l2.
Proof. apply filter_app. Qed.

Lemma nth_error_skipn {A} (l : list A) i : nth_error l i = hd_error (skipn i l).
Proof.
  revert l. induction i as [|i IH]; intros [|x l]; cbn; auto.
Qed.

Lemma skipn_tl {A} (l : list A) i : skipn (S i) l = tl (skipn i l).
Proof.
  revert l. induction i as [|i IH]; intros [|x l]; try reflexivity.
  exact (IH l).
Qed.

Lemma script_split cs i c :
  nth_error cs i = Some c ->
  script cs =
  scriptFrom 0 (List.length cs) (firstn i cs) ++
  Progress (i + 1) (List.length cs) c :: SeekTo (start c) :: Resolve ::
  scriptFrom (S i) (List.length cs) (skipn (S i) cs).
Proof.
  intros Hc. unfold script. rewrite <- (firstn_skipn i cs) at 2.
  rewrite scriptFrom_app. f_equal.
  rewrite length_firstn, Nat.min_l
    by (apply Nat.lt_le_incl, nth_error_Some; congruence).
  rewrite skipn_tl. rewrite nth_error_skipn in Hc.
  destruct (skipn i cs) as [|c' l]; [discriminate|].
  injection Hc as ->. reflexivity.
Qed.

Ltac settle_seq :=
  unfold Sequenced, segmentCalls in *; cbn in *;
  try solve [auto];
  repeat match goal with
         | H : _ /\ _ |- _ => destruct H
         | H : exists _, _ |- _ => destruct H
         end;
  try discriminate; try contradiction; subst;
  repeat split; intros; try discriminate; try congruence; try tauto;
  repeat rewrite filter_app; rewrite ?filter_stops by reflexivity; cbn;
  rewrite ?app_nil_r; try congruence;
  try (eexists; split; [eassumption || reflexivity|]; split; [assumption || discriminate|]);
  try (eexists; eassumption);
  repeat match goal with
         | H : filter isSegmentCall ?tr = _ |- context [filter isSegmentCall ?tr] =>
             rewrite H
         end;
  cbn; rewrite <- ?app_assoc; cbn; rewrite ?app_nil_r; try reflexivity.

Section SequencingFacts.
Variable formatTime : number -> string.

Lemma tryCatch_iteration i w :
  tryCatch (iteration formatTime noThrow i) w =
  match nth_error (snapshot w) i with
  | Some clip =>
      withControl (AwaitSegment i)
        (emit (SetInterval 100)
           (withPoll (Some (mkPoll (end_ clip) false true false))
              (emit PlayVideo
                 (withPlayer (fun pl => mkPlayer (muted pl) (volume pl) true)
                    (emit (SeekTo (start clip))
                       (emit (Progress (i + 1) (List.length (snapshot w)) clip)
                          (withApp (setProcessingStatus
                             ("Recording clip " ++ showNat (i + 1) ++ " of " ++
                              showNat (List.length (snapshot w)) ++ " (" ++
                              formatTime (start clip) ++ " - " ++
                              formatTime (end_ clip) ++ ")")%string) w)))))))
  | None =>
      withControl Completed
        match recorder w with
        | Some recording => recorderStop w
        | _ => w
        end
  end.
Proof.
  unfold tryCatch, iteration, playSegment, call, bind, act, read, ret, throw.
  cbn -[nth_error]. destruct (nth_error (snapshot w) i); cbn.
  - reflexivity.
  - destruct (recorder w) as [[]|]; reflexivity.
Qed.

Lemma tryCatch_afterStream n w pl :
  playerRef w = Some pl ->
  tryCatch (afterStream formatTime noThrow n) w =
  tryCatch (iteration formatTime noThrow 0) (started n w).
Proof.
  intros H. unfold tryCatch, afterStream, started, call, bind, act, read, ret, throw.
  cbn -[iteration]. rewrite H. cbn -[iteration].
  destruct (muted pl); cbn -[iteration]; reflexivity.
Qed.
End SequencingFacts.

Section LoopFacts.
Variable formatTime : number -> string.
Variable throws : Op -> option Exn.

(** The loop at index [i], call by call. *)
Lemma tryCatch_iteration_calls i w :
  tryCatch (iteration formatTime throws i) w =
  match nth_error (snapshot w) i with
  | Some clip =>
      let w1 := emit (Progress (i + 1) (List.length (snapshot w)) clip)
                  (withApp (setProcessingStatus
                     (recordingStatus formatTime (i + 1)
                        (List.length (snapshot w)) clip)) w) in
      match throws OpSeekTo with
      | Some err => catchBlock err w1
      | None =>
          let w2 := emit (SeekTo (start clip)) w1 in
          match throws OpPlayVideo with
          | Some err => catchBlock err w2
          | None =>
              withControl (AwaitSegment i)
                (emit (SetInterval 100)
                   (withPoll (Some (polling (end_ clip)))
                      (emit PlayVideo
                         (withPlayer
                            (fun pl => mkPlayer (muted pl) (volume pl) true)
                            w2))))
          end
      end
  | None =>
      withControl Completed
        match recorder w with
        | Some recording => recorderStop w
        | _ => w
        end
  end.
Proof.
  unfold tryCatch, iteration, playSegment, call, bind, act, read, ret, throw,
    recordingStatus, polling.
  cbn -[nth_error showNat String.append].
  destruct (nth_error (snapshot w) i); cbn -[showNat String.append].
  - destruct (throws OpSeekTo); cbn -[showNat String.append]; [reflexivity|].
    destruct (throws OpPlayVideo); reflexivity.
  - destruct (recorder w) as [[]|]; reflexivity.
Qed.

(** From the stream to the loop: the loop is entered at index 0 with the
    queue and the closure as they were and no segment call made, or a
    call before it throws. *)
Lemma afterStream_enters_loop n w :
  exists w1 calls,
    (tryCatch (afterStream formatTime throws n) w =
       tryCatch (iteration formatTime throws 0) w1 \/
     exists err, tryCatch (afterStream formatTime throws n) w = catchBlock err w1) /\
    snapshot w1 = snapshot w /\ poll w1 = poll w /\
    trace w1 = trace w ++ calls /\ segmentCalls calls = [].
Proof.
  destruct w as [a pr ch sn st rc li se po co tr].
  unfold tryCatch, afterStream, call, bind, act, read, ret, throw.
  cbn -[iteration].
  assert (thrown : forall err w1 calls,
    snapshot w1 = sn -> poll w1 = po ->
    trace w1 = tr ++ calls -> segmentCalls calls = [] ->
    exists w2 calls',
      (catchBlock err w1 = tryCatch (iteration formatTime throws 0) w2 \/
       exists err', catchBlock err w1 = catchBlock err' w2) /\
      snapshot w2 = sn /\ poll w2 = po /\
      trace w2 = tr ++ calls' /\ segmentCalls calls' = []).
  { intros err w1 calls H1 H2 H3 H4. exists w1, calls.
    split; [right; now exists err|auto]. }
  destruct (throws OpMediaRecorder) as [e1|]; cbn -[iteration].
  { eapply thrown; [reflexivity|reflexivity|cbn; rewrite <- ?app_assoc; reflexivity|reflexivity]. }
  destruct (throws OpStart) as [e2|]; cbn -[iteration].
  { eapply thrown; [reflexivity|reflexivity|cbn; rewrite <- ?app_assoc; reflexivity|reflexivity]. }
  destruct pr as [pl|]; cbn -[iteration].
  2:{ eapply thrown; [reflexivity|reflexivity|cbn; rewrite <- ?app_assoc; reflexivity|reflexivity]. }
  destruct (throws OpIsMuted) as [e3|]; cbn -[iteration].
  { eapply thrown; [reflexivity|reflexivity|cbn; rewrite <- ?app_assoc; reflexivity|reflexivity]. }
  destruct (muted pl); cbn -[iteration].
  - destruct (throws OpUnMute) as [e4|]; cbn -[iteration].
    { eapply thrown; [reflexivity|reflexivity|cbn; rewrite <- ?app_assoc; reflexivity|reflexivity]. }
    destruct (throws OpSetVolume) as [e5|]; cbn -[iteration].
    { eapply thrown; [reflexivity|reflexivity|cbn; rewrite <- ?app_assoc; reflexivity|reflexivity]. }
    eexists. eexists. split; [left; reflexivity|]. cbn.
    split; [reflexivity|]. split; [reflexivity|].
    split; [rewrite <- ?app_assoc; reflexivity|reflexivity].
  - destruct (throws OpSetVolume) as [e5|]; cbn -[iteration].
    { eapply thrown; [reflexivity|reflexivity|cbn; rewrite <- ?app_assoc; reflexivity|reflexivity]. }
    eexists. eexists. split; [left; reflexivity|]. cbn.
    split; [reflexivity|]. split; [reflexivity|].
    split; [rewrite <- ?app_assoc; reflexivity|reflexivity].
Qed.
End LoopFacts.

Section StepFacts.
Variable formatTime : number -> string.
Variable throws : Op -> option Exn.

Ltac open_seq w :=
  destruct w as [a pr ch sn st rc li se po co tr];
  unfold Sequenced; cbn; intros (<- & Hk).

(** What the loop does at index [i], given how far the calls have got. *)
Lemma iteration_Sequenced cs w i :
  snapshot w = cs -> poll w = None ->
  segmentCalls (trace w) = scriptFrom 0 (List.length cs) (firstn i cs) ->
  Sequenced cs (tryCatch (iteration formatTime throws i) w).
Proof.
  intros Hs Hp Hc. rewrite tryCatch_iteration_calls, Hs.
  destruct (nth_error cs i) as [c|] eqn:Hn.
  - pose proof (script_split cs i c Hn) as Hsplit.
    cbv zeta.
    destruct (throws OpSeekTo) as [e1|].
    { unfold Sequenced. cbn. split; [exact Hs|]. split; [exact Hp|].
      exists (SeekTo (start c) :: Resolve ::
              scriptFrom (S i) (List.length cs) (skipn (S i) cs)).
      unfold segmentCalls in *. rewrite !filter_app, Hc. cbn.
      rewrite Hsplit, <- !app_assoc. reflexivity. }
    destruct (throws OpPlayVideo) as [e2|].
    { unfold Sequenced. cbn. split; [exact Hs|]. split; [exact Hp|].
      exists (Resolve :: scriptFrom (S i) (List.length cs) (skipn (S i) cs)).
      unfold segmentCalls in *. rewrite !filter_app, Hc. cbn.
      rewrite Hsplit, <- !app_assoc. reflexivity. }
    unfold Sequenced. cbn. split; [exact Hs|].
    exists c. split; [exact Hn|]. split; [discriminate|].
    unfold segmentCalls in *. rewrite !filter_app, Hc. cbn.
    now rewrite <- !app_assoc.
  - assert (E : firstn i cs = cs) by (apply firstn_all2; now apply nth_error_None).
    rewrite E in Hc.
    unfold Sequenced.
    destruct (recorder w) as [[]|]; cbn; (split; [exact Hs|]); (split; [exact Hp|]);
      unfold segmentCalls in *; rewrite ?filter_app; cbn; rewrite ?app_nil_r;
      exact Hc.
Qed.

Lemma catchBlock_Sequenced cs w err rest :
  snapshot w = cs -> poll w = None ->
  script cs = segmentCalls (trace w) ++ rest ->
  Sequenced cs (catchBlock err w).
Proof.
  intros Hs Hp Hc. unfold Sequenced. cbn. split; [exact Hs|]. split; [exact Hp|].
  exists rest. unfold segmentCalls in *. rewrite filter_app. cbn.
  now rewrite app_nil_r.
Qed.

Lemma step_Sequenced_stream cs w r :
  Sequenced cs w -> Sequenced cs (step formatTime throws w (StreamSettled r)).
Proof.
  intros H. unfold step.
  destruct (control w) eqn:Hco; try exact H.
  unfold Sequenced in H. rewrite Hco in H. destruct H as (Hs & Hp & Hc).
  destruct r as [err|n].
  - unfold tryCatch, throw. apply (catchBlock_Sequenced cs w err (script cs)); trivial.
    now rewrite Hc.
  - destruct (afterStream_enters_loop formatTime throws n w)
      as (w1 & calls & [E|[err E]] & H1 & H2 & H3 & H4); rewrite E;
    assert (H5 : segmentCalls (trace w1) = [])
      by (rewrite H3; unfold segmentCalls in *; now rewrite filter_app, Hc, H4).
    + apply (iteration_Sequenced cs w1 0); try congruence. exact H5.
    + apply (catchBlock_Sequenced cs w1 err (script cs)); try congruence.
      now rewrite H5.
Qed.

Lemma step_Sequenced_interval cs w t :
  Sequenced cs w -> Sequenced cs (step formatTime throws w (IntervalFires t)).
Proof.
  open_seq w. cbn.
  destruct po as [[pe rs ci sl]|]; [|settle_seq].
  destruct ci; [|settle_seq].
  unfold intervalCallback. cbn.
  destruct rs, (Num.ge t pe), co; cbn; settle_seq.
Qed.

Lemma step_Sequenced_timeout cs w :
  Sequenced cs w -> Sequenced cs (step formatTime throws w TimeoutFires).
Proof.
  intros H. unfold step.
  destruct (poll w) as [p|] eqn:Hpo; [|exact H].
  destruct (settle p); [|exact H].
  cbv zeta. change (control (emit Resolve (withPoll None w))) with (control w).
  unfold Sequenced in H.
  destruct (control w) eqn:Hco; destruct H as (Hs & Hk);
    try contradiction; try (destruct Hk as (Hk & _); congruence).
  destruct Hk as (c & Hc & _ & Htr).
  apply (iteration_Sequenced cs _ (S i)); trivial.
  cbn. unfold segmentCalls in *. rewrite filter_app, Htr. cbn.
  rewrite (scriptFrom_next _ _ _ _ Hc). now rewrite <- !app_assoc.
Qed.

Lemma step_Sequenced_visibility cs w v :
  Sequenced cs w -> Sequenced cs (step formatTime throws w (VisibilityChange v)).
Proof.
  open_seq w. cbn.
  destruct li; [|settle_seq].
  unfold visibilityHandler. destruct v; [settle_seq|].
  rewrite stopTracks_eq. unfold recorderStop.
  destruct rc as [[]|], st, co; cbn; settle_seq.
Qed.

Lemma step_Sequenced_data cs w d :
  Sequenced cs w -> Sequenced cs (step formatTime throws w (DataAvailable d)).
Proof.
  open_seq w. cbn.
  destruct rc; [|settle_seq]. unfold ondataavailable. cbn.
  destruct d, co; settle_seq.
Qed.

Lemma step_Sequenced_stop cs w :
  Sequenced cs w -> Sequenced cs (step formatTime throws w StopFires).
Proof.
  open_seq w. cbn.
  destruct se; [|settle_seq]. unfold onstop.
  rewrite stopTracks_eq. cbn.
  destruct ch, st, co; cbn; settle_seq.
Qed.

Lemma step_Sequenced cs w e :
  Sequenced cs w -> Sequenced cs (step formatTime throws w e).
Proof.
  destruct e.
  - apply step_Sequenced_stream.
  - apply step_Sequenced_interval.
  - apply step_Sequenced_timeout.
  - apply step_Sequenced_visibility.
  - apply step_Sequenced_data.
  - apply step_Sequenced_stop.
Qed.
End StepFacts.

(** ** Runs *)

Section RunFacts.
Variable formatTime : number -> string.
Variable throws : Op -> option Exn.

Lemma run_snoc s p events e :
  run formatTime throws s p (events ++ [e]) =
  step formatTime throws (run formatTime throws s p events) e.
Proof. unfold run. now rewrite fold_left_app. Qed.

Lemma run_Inv s p events : Inv (run formatTime throws s p events).
Proof.
  induction events as [|e events IH] using rev_ind.
  - apply handleCreateVideo_Inv.
  - rewrite run_snoc. now apply step_Inv.
Qed.

Lemma inert_step w e : inert w -> step formatTime throws w e = w.
Proof.
  destruct w as [a pr ch sn st rc li se po co tr].
  unfold inert. cbn. intros (-> & -> & -> & -> & ->).
  destruct e; reflexivity.
Qed.

Lemma inert_events w events :
  inert w -> fold_left (step formatTime throws) events w = w.
Proof.
  intros H. induction events as [|e events IH]; cbn; [reflexivity|].
  now rewrite inert_step.
Qed.
End RunFacts.

(** C10.  Called with an empty clip queue, or before the player is ready,
    [handleCreateVideo] only sets the validation error: it requests no
    capture stream and plays no segment (the trace of platform calls is
    unchanged), and leaves the processing flag, the clip queue and its own
    control state as they were; from an idle component no later event has
    any effect either. *)
Theorem handleCreateVideo_guard
    (formatTime : number -> string) (throws : Op -> option Exn) (w : World) :
  clips (app w) = [] \/ playerRef w = None ->
  let w' := handleCreateVideo w in
  error (app w') = Some "Please add at least one clip." /\
  trace w' = trace w /\
  isProcessing (app w') = isProcessing (app w) /\
  clips (app w') = clips (app w) /\
  stream w' = stream w /\ recorder w' = recorder w /\ control w' = control w /\
  (inert w -> forall events, fold_left (step formatTime throws) events w' = w').
Proof.
  intros H w'.
  assert (E : w' = withApp (setError (Some "Please add at least one clip.")) w).
  { unfold w', handleCreateVideo.
    destruct H as [H|H]; rewrite H; cbn; [reflexivity|].
    now rewrite orb_true_r. }
  rewrite E. cbn. repeat split.
  intros Hin events. apply inert_events. exact Hin.
Qed.

Lemma handleCreateVideo_guard_witness :
  (clips (app (idle Sample.state None)) = [] \/
   playerRef (idle Sample.state None) = None) /\
  trace (handleCreateVideo (idle Sample.state None)) = [].
Proof.
  split; [right; reflexivity|].
  apply (handleCreateVideo_guard Sample.formatTime noThrow
           (idle Sample.state None) (or_intror eq_refl)).
Defined.

(** ** Finalisation of the recording *)

(** C3, as the code has it.  When the recorder's stop event is handled,
    the processing flag is cleared and the error is left as it was: no
    failure of any kind is reported.  With no chunk accumulated no object
    URL is made and the status text stays; with at least one chunk the URL
    names the concatenation of the chunks in arrival order and the status
    becomes [Done!].  Throughout a started run, an object URL exists only
    if a chunk was accumulated. *)
Theorem finalization_outcome
    (formatTime : number -> string) (throws : Op -> option Exn)
    (s : AppState) (p : option Player) (events : list Event) :
  let w := run formatTime throws s p events in
  let w' := step formatTime throws w StopFires in
  (control w <> Idle -> recordedChunks w = [] -> finishedVideoUrl (app w) = None) /\
  (stopEvent w = true ->
   isProcessing (app w') = false /\
   error (app w') = error (app w) /\
   (recordedChunks w = [] ->
    finishedVideoUrl (app w') = None /\
    processingStatus (app w') = processingStatus (app w)) /\
   (recordedChunks w <> [] ->
    finishedVideoUrl (app w') = Some (List.concat (recordedChunks w)) /\
    processingStatus (app w') = "Done!")).
Proof.
  intros w w'.
  assert (U : control w <> Idle -> recordedChunks w = [] ->
              finishedVideoUrl (app w) = None).
  { pose proof (run_Inv formatTime throws s p events) as H.
    unfold Inv in H. destruct H as (_ & _ & H). fold w in H. intros Hc Hr.
    destruct (control w); try congruence; intuition congruence. }
  split; [exact U|]. intros Hs.
  assert (Hc : control w <> Idle).
  { pose proof (run_Inv formatTime throws s p events) as H.
    unfold Inv in H. destruct H as (_ & _ & H).
    fold w in H. destruct (control w); try discriminate.
    destruct H as (_ & _ & _ & H). congruence. }
  unfold w'. generalize dependent w. intros w U Hs Hc.
  destruct w as [a pr ch sn st rc li se po co tr]. cbn in *. subst se.
  unfold onstop. rewrite stopTracks_eq. cbn.
  destruct ch as [|b ch], st; cbn; repeat split; auto; try congruence; try discriminate.
Qed.

Lemma finalization_outcome_witness :
  let w := run Sample.formatTime noThrow Sample.state Runs.ready
               (removelast Runs.oneChunk) in
  stopEvent w = true /\
  finishedVideoUrl (app (step Sample.formatTime noThrow w StopFires)) =
  Some [Byte.x1a; Byte.x45].
Proof.
  split; [reflexivity|].
  destruct (finalization_outcome Sample.formatTime noThrow Sample.state
              Runs.ready (removelast Runs.oneChunk)) as [_ H].
  destruct (H eq_refl) as (_ & _ & _ & H').
  apply H'. discriminate.
Defined.

(** C3, as stated, fails: a run that finalises with zero chunks ends with
    no failure reported at all. *)
Lemma no_content_reports_no_failure :
  let w := run Sample.formatTime noThrow Sample.state Runs.ready Runs.noData in
  control w = Completed /\ recordedChunks w = [] /\
  isProcessing (app w) = false /\ finishedVideoUrl (app w) = None /\
  error (app w) = None.
Proof. vm_compute. repeat split. Qed.

(** ** Exceptions *)

Section CatchFacts.
Variable formatTime : number -> string.
Variable throws : Op -> option Exn.

(** Whatever the first block of the [try] throws after the stream was
    acquired, the [catch] block deregisters the watcher and reports an
    error, and stops no track. *)
Lemma caught_after_acquisition w n :
  control w = AwaitStream ->
  let w' := step formatTime throws w (StreamSettled (inr n)) in
  control w' = Caught ->
  stream w' = Some (repeat 0 n) /\ listening w' = false /\
  error (app w') <> None /\ isProcessing (app w') = false.
Proof.
  destruct w as [a pr ch sn st rc li se po co tr]. cbn. intros ->.
  unfold tryCatch, afterStream, iteration, playSegment, call, bind, act, read, ret, throw; cbn.
  repeat (case_split; cbn; try solve [repeat split; discriminate]).
Qed.

Lemma abandoned_step w e :
  abandoned w ->
  abandoned (step formatTime throws w e) /\
  stream (step formatTime throws w e) = stream w /\
  recorder (step formatTime throws w e) = recorder w.
Proof.
  destruct w as [a pr ch sn st rc li se po co tr].
  unfold abandoned. cbn. intros (-> & -> & -> & ->).
  destruct e as [r|t| |v|d| ]; cbn; auto.
  destruct rc; cbn; auto. unfold ondataavailable. cbn.
  destruct d; cbn; auto.
Qed.

Lemma abandoned_events w events :
  abandoned w ->
  stream (fold_left (step formatTime throws) events w) = stream w /\
  recorder (fold_left (step formatTime throws) events w) = recorder w.
Proof.
  revert w. induction events as [|e events IH]; intros w H; cbn; [auto|].
  destruct (abandoned_step w e H) as (H' & Hs & Hr).
  destruct (IH _ H') as (I1 & I2). split; congruence.
Qed.
End CatchFacts.

(** C1 on the code.  [new MediaRecorder] rejects the MIME type after a
    stream with two tracks was acquired: the [catch] block deregisters the
    watcher and reports the cause, but no track is stopped, then or by any
    later event.  When the player fails at [unMute], the recorder is left
    recording as well. *)
Theorem exception_after_acquisition_keeps_tracks :
  let w := run Sample.formatTime Sample.unsupported Sample.state Runs.ready
               [StreamSettled (inr 2)] in
  let w' := run Sample.formatTime Sample.brokenPlayer Sample.state Runs.ready
                [StreamSettled (inr 2)] in
  (control w = Caught /\ listening w = false /\ isProcessing (app w) = false /\
   error (app w) = Some "Could not start screen capture: mimeType is not supported" /\
   trace w = [GetDisplayMedia; AddEventListener; RemoveEventListener] /\
   forall events,
     stream (fold_left (step Sample.formatTime Sample.unsupported) events w) =
     Some [0; 0]) /\
  (control w' = Caught /\
   error (app w') = Some "An error occurred: player is gone" /\
   forall events,
     stream (fold_left (step Sample.formatTime Sample.brokenPlayer) events w') =
     Some [0; 0] /\
     recorder (fold_left (step Sample.formatTime Sample.brokenPlayer) events w') =
     Some recording).
Proof.
  intros w w'. split.
  - repeat split. intros events.
    apply (abandoned_events Sample.formatTime Sample.unsupported w events).
    repeat split.
  - repeat split;
      apply (abandoned_events Sample.formatTime Sample.brokenPlayer w' events);
      repeat split.
Qed.

(** ** The cancellation watcher *)

Section WatcherFacts.
Variable formatTime : number -> string.
Variable throws : Op -> option Exn.

Lemma registered_on_acquisition w n :
  control w = AwaitStream ->
  let w' := step formatTime throws w (StreamSettled (inr n)) in
  stream w' = Some (repeat 0 n) /\
  (control w' <> Caught -> listening w' = true).
Proof.
  destruct w as [a pr ch sn st rc li se po co tr]. cbn. intros ->.
  unfold tryCatch, afterStream, iteration, playSegment, call, bind, act, read, ret, throw; cbn.
  repeat (case_split; cbn; try solve [split; congruence]).
Qed.
End WatcherFacts.

Section WatchedFacts.
Variable formatTime : number -> string.
Variable throws : Op -> option Exn.

Lemma handleCreateVideo_Watched s p : Watched (handleCreateVideo (idle s p)).
Proof.
  unfold handleCreateVideo, Watched. cbn. destruct (_ || _); cbn; exact I.
Qed.

Lemma step_Watched w e : Watched w -> Watched (step formatTime throws w e).
Proof.
  unfold Watched. intros H.
  by_event w e ltac:(cbn in *; unpack; repeat split; intros; try discriminate;
                     try congruence; auto; use_hyps; try congruence).
Qed.

Lemma run_Watched s p events : Watched (run formatTime throws s p events).
Proof.
  induction events as [|e events IH] using rev_ind.
  - apply handleCreateVideo_Watched.
  - rewrite run_snoc. now apply step_Watched.
Qed.

Lemma watcher_deregisters_itself w :
  listening w = true ->
  let w' := step formatTime throws w (VisibilityChange hidden) in
  listening w' = false /\ isProcessing (app w') = false /\
  error (app w') = Some cancelledMessage.
Proof.
  destruct w as [a pr ch sn st rc li se po co tr]. cbn. intros ->.
  unfold visibilityHandler. rewrite stopTracks_eq. unfold recorderStop.
  destruct rc as [[]|], st; cbn; auto.
Qed.

Lemma onstop_deregisters w :
  stopEvent w = true ->
  let w' := step formatTime throws w StopFires in
  listening w' = false /\ isProcessing (app w') = false /\ stopEvent w' = false.
Proof.
  destruct w as [a pr ch sn st rc li se po co tr]. cbn. intros ->.
  unfold onstop. rewrite stopTracks_eq. cbn.
  destruct ch, st; cbn; auto.
Qed.
End WatchedFacts.

(** C5, as the code has it.  While the capture stream is being requested
    no watcher is registered; the watcher is registered in the task that
    receives the stream, so a registered watcher always has a stream.  It
    is deregistered on every path that ends the run, and the processing
    flag is lowered with it: a run that went through the [catch] block
    has no watcher and the flag down; the watcher, when it fires on a
    hidden tab, deregisters itself, lowers the flag and reports the
    cancellation; the handler of the recorder's stop event deregisters it
    and lowers the flag; and when the [try] block was left at its end, a
    watcher that is still registered has that stop event ahead of it.
    Whenever the flag is down the watcher is not registered. *)
Theorem watcher_lifetime
    (formatTime : number -> string) (throws : Op -> option Exn)
    (s : AppState) (p : option Player) (events : list Event) :
  let w := run formatTime throws s p events in
  (control w = AwaitStream -> listening w = false) /\
  (forall n, control w = AwaitStream ->
     let w' := step formatTime throws w (StreamSettled (inr n)) in
     stream w' = Some (repeat 0 n) /\
     (control w' <> Caught -> listening w' = true)) /\
  (listening w = true -> stream w <> None) /\
  (isProcessing (app w) = false -> listening w = false) /\
  (control w = Caught -> listening w = false /\ isProcessing (app w) = false) /\
  (listening w = true ->
     let w' := step formatTime throws w (VisibilityChange hidden) in
     listening w' = false /\ isProcessing (app w') = false /\
     error (app w') = Some cancelledMessage) /\
  (stopEvent w = true ->
     let w' := step formatTime throws w StopFires in
     listening w' = false /\ isProcessing (app w') = false /\
     stopEvent w' = false) /\
  (control w = Completed -> listening w = true -> stopEvent w = true).
Proof.
  intros w. pose proof (run_Inv formatTime throws s p events) as H.
  pose proof (run_Watched formatTime throws s p events) as W.
  unfold Inv in H. unfold Watched in W. fold w in H, W.
  destruct H as (_ & Hl & Hk).
  repeat split.
  - intros Hc. rewrite Hc in Hk. tauto.
  - now apply registered_on_acquisition.
  - now apply registered_on_acquisition.
  - intros Hli. now apply Hl.
  - intros Hp. destruct (listening w); [|reflexivity].
    destruct (Hl eq_refl). congruence.
  - rewrite H in W. tauto.
  - rewrite H in W. tauto.
  - now apply watcher_deregisters_itself.
  - now apply watcher_deregisters_itself.
  - now apply watcher_deregisters_itself.
  - now apply onstop_deregisters.
  - now apply onstop_deregisters.
  - now apply onstop_deregisters.
  - intros Hc Hli. rewrite Hc in W. now apply W.
Qed.

(** C5, as stated, fails: the stream is requested and acquired first, the
    watcher is registered afterwards; when the request is refused the
    watcher is never registered. *)
Lemma watcher_registered_after_acquisition :
  let asked := run Sample.formatTime noThrow Sample.state Runs.ready [] in
  let got := run Sample.formatTime noThrow Sample.state Runs.ready
                 [StreamSettled (inr 2)] in
  let refused := run Sample.formatTime noThrow Sample.state Runs.ready
                     [StreamSettled (inl (DOMException "NotAllowedError" "Permission denied"))] in
  (trace asked = [GetDisplayMedia] /\ listening asked = false) /\
  firstn 2 (trace got) = [GetDisplayMedia; AddEventListener] /\
  trace refused = [GetDisplayMedia; RemoveEventListener].
Proof. vm_compute. repeat split. Qed.

(** ** The interval timer of the segment player *)

Section TimerFacts.
Variable formatTime : number -> string.
Variable throws : Op -> option Exn.

Lemma only_ticks_clear w e :
  (forall t, e <> IntervalFires t) ->
  timersCleared (trace (step formatTime throws w e)) = timersCleared (trace w).
Proof.
  destruct w as [a pr ch sn st rc li se po co tr]. intros He.
  destruct e as [r|t| |v|d| ]; cbn.
  - destruct co; cbn; auto. destruct r as [err|n]; unfold tryCatch; cbn.
    + count_timers.
    + unfold afterStream, iteration, playSegment, call, bind, act, read, ret, throw; cbn.
      repeat (case_split; cbn; try solve [count_timers]).
  - now destruct (He t).
  - destruct po as [[pe rs ci sl]|]; auto.
    destruct sl; auto. cbn. destruct co; cbn; try solve [count_timers].
    unfold tryCatch, iteration, playSegment, call, bind, act, read, ret, throw; cbn.
    repeat (case_split; cbn; try solve [count_timers]).
  - destruct li; auto. unfold visibilityHandler. destruct v; auto.
    rewrite stopTracks_eq. unfold recorderStop.
    destruct rc as [[]|], st; cbn; count_timers.
  - destruct rc; auto. unfold ondataavailable. cbn. destruct d; auto.
  - destruct se; auto. unfold onstop. rewrite stopTracks_eq. cbn.
    destruct ch, st; cbn; count_timers.
Qed.

Lemma watcher_keeps_timer w v :
  poll (step formatTime throws w (VisibilityChange v)) = poll w.
Proof.
  destruct w as [a pr ch sn st rc li se po co tr]. cbn.
  destruct li; auto. unfold visibilityHandler. destruct v; auto.
  rewrite stopTracks_eq. unfold recorderStop.
  destruct rc as [[]|], st; reflexivity.
Qed.

Lemma onstop_keeps_timer w :
  poll (step formatTime throws w StopFires) = poll w.
Proof.
  destruct w as [a pr ch sn st rc li se po co tr]. cbn.
  destruct se; auto. unfold onstop. rewrite stopTracks_eq. cbn.
  destruct ch, st; reflexivity.
Qed.

Lemma tick w p t :
  poll w = Some p -> checkInterval p = true -> resolved p = false ->
  let w' := step formatTime throws w (IntervalFires t) in
  if Num.ge t (poll_end p) then
    live w' = 0 /\ timersCleared (trace w') = S (timersCleared (trace w))
  else
    poll w' = poll w /\ timersCleared (trace w') = timersCleared (trace w).
Proof.
  destruct w as [a pr ch sn st rc li se po co tr], p as [pe rs ci sl].
  cbn. intros -> -> ->. cbn. unfold intervalCallback. cbn.
  destruct (Num.ge t pe); cbn; split; try reflexivity; count_timers.
Qed.
End TimerFacts.

(** C9, as the code has it.  Every timer made by [setInterval] is cleared
    at most once: the timers cleared and the one still live add up to the
    timers made.  A live timer is cleared by the tick that samples a
    position at or past the end of the clip, and by nothing else: a tick
    before the end leaves it live, the watcher and the stop handler do not
    touch it, and no other event clears a timer. *)
Theorem interval_cleared_on_success_only
    (formatTime : number -> string) (throws : Op -> option Exn)
    (s : AppState) (p : option Player) (events : list Event) :
  let w := run formatTime throws s p events in
  timersCleared (trace w) + live w = timersMade (trace w) /\
  (forall q t, poll w = Some q -> checkInterval q = true ->
     let w' := step formatTime throws w (IntervalFires t) in
     if Num.ge t (poll_end q) then
       live w' = 0 /\ timersCleared (trace w') = S (timersCleared (trace w))
     else
       poll w' = poll w /\ timersCleared (trace w') = timersCleared (trace w)) /\
  (forall e, (forall t, e <> IntervalFires t) ->
     timersCleared (trace (step formatTime throws w e)) = timersCleared (trace w)) /\
  (forall v, poll (step formatTime throws w (VisibilityChange v)) = poll w) /\
  poll (step formatTime throws w StopFires) = poll w.
Proof.
  intros w. pose proof (run_Inv formatTime throws s p events) as H.
  unfold Inv in H. fold w in H. destruct H as (Hc & _ & Hk).
  split; [exact Hc|]. split; [|split; [|split]].
  - intros q t Hq Hci. apply tick; trivial.
    rewrite Hq in Hk.
    destruct (control w); try (destruct Hk as [Hk _]; discriminate).
    destruct Hk as ((q' & [= <-] & [(? & _)|(_ & ? & _)]) & _); congruence.
  - apply only_ticks_clear.
  - apply watcher_keeps_timer.
  - apply onstop_keeps_timer.
Qed.

(** C9, as stated, fails on the early-abort path: the watcher ends the run
    while the first clip is playing, and the timer stays live; it goes on
    sampling the player. *)
Lemma timer_survives_cancellation :
  let w := run Sample.formatTime noThrow Sample.state Runs.ready
               Runs.hiddenDuringFirst in
  isProcessing (app w) = false /\ error (app w) = Some cancelledMessage /\
  live w = 1 /\ timersCleared (trace w) = 0 /\
  trace (step Sample.formatTime noThrow w (IntervalFires (Sample.seconds 7))) =
  trace w ++ [GetCurrentTime (Sample.seconds 7)].
Proof. vm_compute. repeat split. Qed.

(** ** The segment player *)

Section SegmentFacts.
Variable formatTime : number -> string.
Variable throws : Op -> option Exn.

Lemma emitAll_emit a l w : emitAll l (emit a w) = emitAll (a :: l) w.
Proof. unfold emitAll, emit. cbn. now rewrite <- app_assoc. Qed.

Lemma emitAll_nil w : emitAll [] w = w.
Proof. destruct w. unfold emitAll. cbn. now rewrite app_nil_r. Qed.

Lemma tick_below w e t :
  poll w = Some (polling e) -> Num.ge t e = false ->
  step formatTime throws w (IntervalFires t) = emit (GetCurrentTime t) w.
Proof.
  destruct w as [a pr ch sn st rc li se po co tr]. cbn. intros -> H. cbn.
  unfold intervalCallback. cbn. now rewrite H.
Qed.

Lemma ticks_below w e below :
  poll w = Some (polling e) ->
  Forall (fun t => Num.ge t e = false) below ->
  fold_left (step formatTime throws) (map IntervalFires below) w =
  emitAll (map GetCurrentTime below) w.
Proof.
  intros Hp H. revert w Hp.
  induction H as [|t below Ht H IH]; intros w Hp; cbn [map fold_left].
  - now rewrite emitAll_nil.
  - rewrite (tick_below _ _ _ Hp Ht), IH by exact Hp. apply emitAll_emit.
Qed.

Lemma tick_reached w e t :
  poll w = Some (polling e) -> Num.ge t e = true ->
  step formatTime throws w (IntervalFires t) =
  withPoll (Some (settling e))
    (emitAll [GetCurrentTime t; ClearInterval; PauseVideo; SetTimeout 200]
       (withPlayer (fun pl => mkPlayer (muted pl) (volume pl) false) w)).
Proof.
  destruct w as [a pr ch sn st rc li se po co tr]. cbn. intros -> H. cbn.
  unfold intervalCallback. cbn. rewrite H. unfold emitAll, emit. cbn.
  now rewrite <- !app_assoc.
Qed.

Lemma timeout_resolves w e :
  poll w = Some (settling e) ->
  exists rest,
    trace (step formatTime throws w TimeoutFires) = trace w ++ Resolve :: rest.
Proof.
  destruct w as [a pr ch sn st rc li se po co tr]. cbn. intros ->. cbn.
  destruct co; cbn; try (exists []; reflexivity).
  unfold tryCatch, iteration, playSegment, call, bind, act, read, ret, throw.
  cbn -[nth_error showNat String.append].
  destruct (nth_error sn (S i)); cbn -[showNat String.append].
  - repeat (case_split; cbn -[showNat String.append]);
      rewrite <- ?app_assoc; cbn; eexists; reflexivity.
  - destruct rc as [[]|]; cbn; rewrite <- ?app_assoc; cbn; eexists; reflexivity.
Qed.
End SegmentFacts.

(** C4.  [playSegment(player, start, end)] seeks to [start], starts the
    player and sets a 100 ms interval timer.  As long as the sampled
    positions are before [end] it only samples: nothing is paused or
    resolved, and no timeout is pending.  The first sample at or past
    [end] clears the timer, pauses the player and sets a 200 ms timeout;
    the timer does not fire again, and when the timeout fires the promise
    resolves - after that sample and after the pause. *)
Theorem playSegment_polls_pauses_resolves
    (formatTime : number -> string) (throws : Op -> option Exn)
    (w : World) (start end_ : number) (below : list number) (reached : number) :
  throws OpSeekTo = None -> throws OpPlayVideo = None ->
  Forall (fun t => Num.ge t end_ = false) below ->
  Num.ge reached end_ = true ->
  let w1 := fst (playSegment throws start end_ w) in
  let w2 := fold_left (step formatTime throws) (map IntervalFires below) w1 in
  let w3 := step formatTime throws w2 (IntervalFires reached) in
  let w4 := step formatTime throws w3 TimeoutFires in
  snd (playSegment throws start end_ w) = inr tt /\
  trace w1 = trace w ++ [SeekTo start; PlayVideo; SetInterval 100] /\
  poll w1 = Some (polling end_) /\
  trace w2 = trace w1 ++ map GetCurrentTime below /\
  poll w2 = Some (polling end_) /\
  step formatTime throws w2 TimeoutFires = w2 /\
  trace w3 = trace w2 ++ [GetCurrentTime reached; ClearInterval; PauseVideo;
                          SetTimeout 200] /\
  poll w3 = Some (settling end_) /\
  (forall t, step formatTime throws w3 (IntervalFires t) = w3) /\
  exists rest, trace w4 = trace w3 ++ Resolve :: rest.
Proof.
  intros Hseek Hplay Hbelow Hreach w1 w2 w3 w4.
  assert (E1 : playSegment throws start end_ w =
               (emit (SetInterval 100)
                  (withPoll (Some (polling end_))
                     (emit PlayVideo
                        (withPlayer (fun pl => mkPlayer (muted pl) (volume pl) true)
                           (emit (SeekTo start) w)))), inr tt)).
  { unfold playSegment, call, bind, act. now rewrite Hseek, Hplay. }
  assert (P1 : poll w1 = Some (polling end_)) by (unfold w1; now rewrite E1).
  assert (E2 : w2 = emitAll (map GetCurrentTime below) w1)
    by (apply ticks_below with (e := end_); assumption).
  assert (P2 : poll w2 = Some (polling end_)) by (now rewrite E2).
  assert (E3 : w3 = withPoll (Some (settling end_))
                      (emitAll [GetCurrentTime reached; ClearInterval; PauseVideo;
                                SetTimeout 200]
                         (withPlayer (fun pl => mkPlayer (muted pl) (volume pl) false) w2)))
    by (apply tick_reached with (e := end_); assumption).
  assert (P3 : poll w3 = Some (settling end_)) by (now rewrite E3).
  split; [now rewrite E1|].
  split; [unfold w1; rewrite E1; cbn; now rewrite <- !app_assoc|].
  split; [exact P1|].
  split; [now rewrite E2|].
  split; [exact P2|].
  split; [destruct w2; cbn in P2; subst; reflexivity|].
  split; [now rewrite E3|].
  split; [exact P3|].
  split; [intros t; destruct w3; cbn in P3; subst; reflexivity|].
  now apply timeout_resolves with (e := end_).
Qed.

Lemma playSegment_polls_pauses_resolves_witness :
  let w := idle Sample.state Runs.ready in
  let w1 := fst (playSegment noThrow (Sample.seconds 5) (Sample.seconds 10) w) in
  let events := map IntervalFires [Sample.seconds 5; Sample.seconds 7] ++
                [IntervalFires (Sample.seconds 10); TimeoutFires] in
  (noThrow OpSeekTo = None /\ noThrow OpPlayVideo = None /\
   Forall (fun t => Num.ge t (Sample.seconds 10) = false)
          [Sample.seconds 5; Sample.seconds 7] /\
   Num.ge (Sample.seconds 10) (Sample.seconds 10) = true) /\
  exists rest,
    trace (fold_left (step Sample.formatTime noThrow) events w1) =
    [SeekTo (Sample.seconds 5); PlayVideo; SetInterval 100;
     GetCurrentTime (Sample.seconds 5); GetCurrentTime (Sample.seconds 7);
     GetCurrentTime (Sample.seconds 10); ClearInterval; PauseVideo;
     SetTimeout 200] ++ Resolve :: rest.
Proof.
  intros w w1 events.
  assert (B : Forall (fun t => Num.ge t (Sample.seconds 10) = false)
                     [Sample.seconds 5; Sample.seconds 7])
    by (repeat constructor).
  split; [repeat split; exact B|].
  destruct (playSegment_polls_pauses_resolves Sample.formatTime noThrow w
              (Sample.seconds 5) (Sample.seconds 10)
              [Sample.seconds 5; Sample.seconds 7] (Sample.seconds 10)
              eq_refl eq_refl B eq_refl)
    as (_ & _ & _ & _ & _ & _ & _ & _ & _ & rest & H).
  exists rest. exact H.
Defined.

(** ** The segments of a run *)

Lemma StronglySorted_app_l {A} (R : A -> A -> Prop) l1 l2 :
  StronglySorted R (l1 ++ l2) -> StronglySorted R l1.
Proof.
  induction l1 as [|x l1 IH]; cbn; intros H; [constructor|].
  inversion H as [|? ? Hs Hf]; subst. constructor; [now apply IH|].
  apply Forall_app in Hf. tauto.
Qed.

Lemma seeks_app l1 l2 : seeks (l1 ++ l2) = seeks l1 ++ seeks l2.
Proof. apply flat_map_app. Qed.

Lemma seeks_segmentCalls tr : seeks (segmentCalls tr) = seeks tr.
Proof.
  unfold seeks, segmentCalls.
  induction tr as [|a tr IH]; [reflexivity|].
  destruct a; cbn; rewrite ?IH; reflexivity.
Qed.

Lemma seeks_scriptFrom i n cs : seeks (scriptFrom i n cs) = map start cs.
Proof.
  revert i. induction cs as [|c cs IH]; intros i; [reflexivity|].
  cbn [scriptFrom map]. unfold seeks in *. cbn. now rewrite IH.
Qed.

Lemma sorted_starts cs :
  StronglySorted startLe cs -> StronglySorted numLe (map start cs).
Proof.
  induction 1 as [|c cs Hs IH Hf]; cbn; constructor; [exact IH|].
  apply Forall_map. exact Hf.
Qed.

Section PlaythroughFacts.
Variable formatTime : number -> string.

Lemma timeout_continues w i e :
  control w = AwaitSegment i -> poll w = Some (settling e) ->
  step formatTime noThrow w TimeoutFires =
  tryCatch (iteration formatTime noThrow (S i)) (emit Resolve (withPoll None w)).
Proof.
  destruct w as [a pr ch sn st rc li se po co tr]. cbn. now intros -> ->.
Qed.

Lemma playthrough_cons surface c cs :
  playthrough surface (c :: cs) =
  segmentEvents (fst (surface c)) (snd (surface c)) ++ playthrough surface cs.
Proof. reflexivity. Qed.

Lemma plays_through surface cs rest :
  forall i w c,
    snapshot w = cs -> skipn i cs = c :: rest ->
    control w = AwaitSegment i -> poll w = Some (polling (end_ c)) ->
    Forall (reachesEnd surface) (c :: rest) ->
    control (fold_left (step formatTime noThrow) (playthrough surface (c :: rest)) w)
    = Completed.
Proof.
  induction rest as [|c' rest IH]; intros i w c Hs Hk Hc Hp Hr;
    inversion Hr as [|? ? [Hb Hreach] Hr']; subst;
    rewrite playthrough_cons; unfold segmentEvents;
    rewrite !fold_left_app; cbn [fold_left];
    rewrite (ticks_below formatTime noThrow _ _ _ Hp Hb);
    rewrite (tick_reached formatTime noThrow _ (end_ c)) by (first [exact Hreach | exact Hp]);
    rewrite (timeout_continues _ i (end_ c)) by (first [exact Hc | reflexivity]);
    rewrite tryCatch_iteration; cbn [snapshot withPoll emit emitAll withPlayer];
    rewrite nth_error_skipn, skipn_tl, Hk; cbn [tl hd_error].
  - destruct (recorder _) as [[]|]; reflexivity.
  - apply (IH (S i) _ c'); trivial.
    now rewrite skipn_tl, Hk.
Qed.

Lemma stream_granted w n :
  control w = AwaitStream ->
  step formatTime noThrow w (StreamSettled (inr n)) =
  tryCatch (afterStream formatTime noThrow n) w.
Proof.
  destruct w as [a pr ch sn st rc li se po co tr]. cbn. now intros ->.
Qed.

Lemma started_snapshot n w : snapshot (started n w) = snapshot w.
Proof. unfold started. destruct (playerRef w) as [[[] ? ?]|]; reflexivity. Qed.

Lemma run_plays_through surface s pl n :
  clips s <> [] -> Forall (reachesEnd surface) (clips s) ->
  control (run formatTime noThrow s (Some pl)
             (StreamSettled (inr n) :: playthrough surface (clips s))) = Completed.
Proof.
  intros Hne Hr. unfold run. cbn [fold_left].
  destruct (clips s) as [|c cs] eqn:E; [congruence|].
  set (w0 := handleCreateVideo (idle s (Some pl))).
  assert (Hc : control w0 = AwaitStream)
    by (unfold w0, handleCreateVideo; cbn; now rewrite E).
  assert (Hp : playerRef w0 = Some pl)
    by (unfold w0, handleCreateVideo; cbn; now rewrite E).
  assert (Hs : snapshot w0 = c :: cs)
    by (unfold w0, handleCreateVideo; cbn; now rewrite E).
  rewrite (stream_granted _ _ Hc), (tryCatch_afterStream _ _ _ _ Hp).
  rewrite tryCatch_iteration, started_snapshot, Hs. cbn [nth_error].
  apply (plays_through surface (c :: cs) cs 0 _ c); trivial.
  cbn -[started]. now rewrite started_snapshot.
Qed.
End PlaythroughFacts.

Section SequenceFacts.
Variable formatTime : number -> string.
Variable throws : Op -> option Exn.

Lemma handleCreateVideo_Sequenced s pl :
  clips s <> [] -> Sequenced (clips s) (handleCreateVideo (idle s (Some pl))).
Proof.
  intros H. unfold handleCreateVideo, Sequenced. cbn.
  destruct (clips s) as [|c cs]; [congruence|]. cbn.
  repeat split.
Qed.

Lemma run_Sequenced s pl events :
  clips s <> [] ->
  Sequenced (clips s) (run formatTime throws s (Some pl) events).
Proof.
  intros H. induction events as [|e events IH] using rev_ind.
  - now apply handleCreateVideo_Sequenced.
  - rewrite run_snoc. now apply step_Sequenced.
Qed.

Lemma Sequenced_prefix cs w :
  Sequenced cs w ->
  (exists rest, script cs = segmentCalls (trace w) ++ rest) /\
  (control w = Completed -> segmentCalls (trace w) = script cs).
Proof.
  intros (Hs & Hk). destruct (control w); try contradiction.
  - destruct Hk as (_ & ->). split; [now exists (script cs)|discriminate].
  - destruct Hk as (c & Hc & _ & ->). split; [|discriminate].
    exists (Resolve :: scriptFrom (S i) (List.length cs) (skipn (S i) cs)).
    rewrite (script_split cs i c Hc), <- app_assoc. reflexivity.
  - destruct Hk as (_ & ->). split; [now exists []; rewrite app_nil_r|reflexivity].
  - destruct Hk as (_ & Hk). split; [exact Hk|discriminate].
Qed.

(** Only the arrival of the stream and the end of a settle delay move
    the body of [handleCreateVideo]. *)
Lemma control_kept w e :
  (forall r, e <> StreamSettled r) -> e <> TimeoutFires ->
  control (step formatTime throws w e) = control w.
Proof.
  destruct w as [a pr ch sn st rc li se po co tr]. intros H1 H2.
  destruct e as [r|t| |v|d| ]; cbn.
  - now destruct (H1 r).
  - destruct po as [[pe rs ci sl]|]; auto. destruct ci; auto.
    unfold intervalCallback. cbn. destruct rs, (Num.ge t pe); reflexivity.
  - now destruct H2.
  - destruct li; auto. unfold visibilityHandler. destruct v; auto.
    rewrite stopTracks_eq. unfold recorderStop.
    destruct rc as [[]|], st; reflexivity.
  - destruct rc; auto. unfold ondataavailable. cbn. destruct d; reflexivity.
  - destruct se; auto. unfold onstop. rewrite stopTracks_eq. cbn.
    destruct ch, st; reflexivity.
Qed.

(** What the loop leaves behind when it starts segment [i]. *)
Lemma iteration_starts w i j :
  control (tryCatch (iteration formatTime throws j) w) = AwaitSegment i ->
  i = j /\
  exists c, nth_error (snapshot w) i = Some c /\
    processingStatus (app (tryCatch (iteration formatTime throws j) w)) =
      recordingStatus formatTime (i + 1) (List.length (snapshot w)) c /\
    poll (tryCatch (iteration formatTime throws j) w) = Some (polling (end_ c)) /\
    trace (tryCatch (iteration formatTime throws j) w) =
      trace w ++ [Progress (i + 1) (List.length (snapshot w)) c;
                  SeekTo (start c); PlayVideo; SetInterval 100].
Proof.
  rewrite tryCatch_iteration_calls.
  destruct (nth_error (snapshot w) j) as [c|] eqn:Hn; cbv zeta.
  - destruct (throws OpSeekTo); [discriminate|].
    destruct (throws OpPlayVideo); [discriminate|].
    cbn. intros [= <-]. split; [reflexivity|]. exists c.
    repeat split; trivial. now rewrite <- !app_assoc.
  - discriminate.
Qed.

Lemma segment_start cs w e i :
  snapshot w = cs ->
  let w' := step formatTime throws w e in
  control w' = AwaitSegment i -> control w <> AwaitSegment i ->
  exists c, nth_error cs i = Some c /\
    processingStatus (app w') =
      recordingStatus formatTime (i + 1) (List.length cs) c /\
    poll w' = Some (polling (end_ c)) /\
    exists calls,
      trace w' = trace w ++ calls ++
        [Progress (i + 1) (List.length cs) c; SeekTo (start c);
         PlayVideo; SetInterval 100].
Proof.
  intros Hs w' Hc Hn.
  destruct e as [r|t| |v|d| ];
    try (unfold w' in Hc; rewrite control_kept in Hc by discriminate;
         congruence).
  - unfold w', step in *. destruct (control w) eqn:Hco; try congruence.
    destruct r as [err|n]; [discriminate|].
    destruct (afterStream_enters_loop formatTime throws n w)
      as (w1 & calls & [E|[err E]] & H1 & H2 & H3 & H4); rewrite E in *;
      [|discriminate].
    destruct (iteration_starts _ _ _ Hc) as (-> & c & Q1 & Q2 & Q3 & Q4).
    rewrite H1, Hs in *. exists c. repeat split; trivial.
    exists calls. now rewrite Q4, H3, <- app_assoc.
  - unfold w', step in *. destruct (poll w) as [p|]; [|congruence].
    destruct (settle p); [|congruence]. cbv zeta in *.
    change (control (emit Resolve (withPoll None w))) with (control w) in *.
    destruct (control w) eqn:Hco; try (cbn in Hc; congruence).
    destruct (iteration_starts _ _ _ Hc) as (-> & c & Q1 & Q2 & Q3 & Q4).
    cbn [snapshot emit withPoll] in *. rewrite Hs in *.
    exists c. repeat split; trivial.
    exists [Resolve]. rewrite Q4. cbn. now rewrite <- app_assoc.
Qed.
End SequenceFacts.

Section Disturbed.
Variable formatTime : number -> string.

Lemma timer_sameLoop w1 w2 e :
  isTimer e = true -> sameLoop w1 w2 ->
  sameLoop (step formatTime noThrow w1 e) (step formatTime noThrow w2 e).
Proof.
  destruct w1 as [a pr ch sn st rc li se po co tr],
           w2 as [a' pr' ch' sn' st' rc' li' se' po' co' tr'].
  unfold sameLoop. cbn. intros He (<- & <- & <-).
  destruct e as [r|t| |v|d| ]; try discriminate; cbn.
  - destruct po as [[pe rs ci sl]|]; auto. destruct ci; auto.
    unfold intervalCallback. cbn. destruct rs, (Num.ge t pe); cbn; auto.
  - destruct po as [[pe rs ci sl]|]; auto. destruct sl; auto. cbn.
    destruct co; auto. rewrite !tryCatch_iteration. cbn -[nth_error].
    destruct (nth_error sn (S i)); cbn; auto.
    destruct rc as [[]|], rc' as [[]|]; cbn; auto.
Qed.

Lemma other_sameLoop w e :
  isTimer e = false -> control w <> AwaitStream ->
  sameLoop (step formatTime noThrow w e) w.
Proof.
  destruct w as [a pr ch sn st rc li se po co tr].
  unfold sameLoop. cbn. intros He Hc.
  destruct e as [r|t| |v|d| ]; try discriminate; cbn.
  - destruct co; auto. congruence.
  - destruct li; auto. unfold visibilityHandler. destruct v; auto.
    rewrite stopTracks_eq. unfold recorderStop.
    destruct rc as [[]|], st; cbn; auto.
  - destruct rc; auto. unfold ondataavailable. cbn. destruct d; auto.
  - destruct se; auto. unfold onstop. rewrite stopTracks_eq. cbn.
    destruct ch, st; cbn; auto.
Qed.

Lemma never_awaits_again (throws : Op -> option Exn) w e :
  control w <> AwaitStream ->
  control (step formatTime throws w e) <> AwaitStream.
Proof.
  intros H.
  by_event w e ltac:(cbn in *; congruence).
Qed.

Lemma stream_settles (throws : Op -> option Exn) w r :
  control (step formatTime throws w (StreamSettled r)) <> AwaitStream.
Proof.
  unfold step. destruct (control w) eqn:Hc; try congruence.
  destruct r as [err|n]; [discriminate|].
  destruct (afterStream_enters_loop formatTime throws n w)
    as (w1 & calls & [E|[err E]] & _); rewrite E; [|discriminate].
  rewrite tryCatch_iteration_calls.
  destruct (nth_error _ _); cbv zeta; [|discriminate].
  destruct (throws OpSeekTo); [discriminate|].
  destruct (throws OpPlayVideo); discriminate.
Qed.

(** Events that are not timer events do not bear on the loop. *)
Lemma disturbances_ignored events :
  forall w1 w2, sameLoop w1 w2 -> control w1 <> AwaitStream ->
  sameLoop (fold_left (step formatTime noThrow) events w1)
           (fold_left (step formatTime noThrow) (filter isTimer events) w2).
Proof.
  induction events as [|e events IH]; intros w1 w2 H Hc; cbn; [exact H|].
  destruct (isTimer e) eqn:He; cbn.
  - apply IH; [now apply timer_sameLoop | now apply never_awaits_again].
  - apply IH; [|now apply never_awaits_again].
    destruct (other_sameLoop w1 e He Hc) as (A & B & C).
    destruct H as (A' & B' & C'). repeat split; congruence.
Qed.

Lemma run_plays_through_disturbed surface s pl n events :
  clips s <> [] -> Forall (reachesEnd surface) (clips s) ->
  filter isTimer events = playthrough surface (clips s) ->
  control (run formatTime noThrow s (Some pl) (StreamSettled (inr n) :: events))
  = Completed.
Proof.
  intros Hne Hr He.
  pose proof (run_plays_through formatTime surface s pl n Hne Hr) as H.
  unfold run in *. cbn [fold_left] in *.
  set (w1 := step formatTime noThrow (handleCreateVideo (idle s (Some pl)))
               (StreamSettled (inr n))) in *.
  destruct (disturbances_ignored events w1 w1) as (A & _).
  - repeat split.
  - apply stream_settles.
  - rewrite A, He. exact H.
Qed.
End Disturbed.

(** C6.  In a run over a non-empty queue with a ready player, whatever
    the events and whatever throws: the calls that report progress, seek
    and resolve are, at every moment, an initial part of the script
    [Progress 1 n c1; SeekTo; Resolve; Progress 2 n c2; SeekTo; Resolve;
    ...] over the queue, and the whole script once the loop is left at its
    end - at most one segment per clip and exactly one then, in queue
    order, each reported before it starts and resolved before the next is
    reported.  On a queue sorted by start the seeks are ascending.  The
    task that starts segment [i] sets the status to the report of clip
    [i] - its index plus one, the length of the queue, its formatted
    times - then seeks to its start, and polls for its end.  If nothing
    throws and the surface reaches the end of every clip, the run does
    leave the loop, whatever else happens in between. *)
Theorem segments_played_in_sequence
    (formatTime : number -> string) (throws : Op -> option Exn)
    (s : AppState) (pl : Player) (events : list Event) :
  clips s <> [] ->
  let total := List.length (clips s) in
  let w := run formatTime throws s (Some pl) events in
  (exists rest, script (clips s) = segmentCalls (trace w) ++ rest) /\
  (control w = Completed -> segmentCalls (trace w) = script (clips s)) /\
  (StronglySorted startLe (clips s) -> StronglySorted numLe (seeks (trace w))) /\
  (forall e i,
     let w' := step formatTime throws w e in
     control w' = AwaitSegment i -> control w <> AwaitSegment i ->
     exists clip, nth_error (clips s) i = Some clip /\
       processingStatus (app w') = recordingStatus formatTime (i + 1) total clip /\
       poll w' = Some (polling (end_ clip)) /\
       exists calls,
         trace w' = trace w ++ calls ++
           [Progress (i + 1) total clip; SeekTo (start clip);
            PlayVideo; SetInterval 100]) /\
  (forall surface tracks others,
     Forall (reachesEnd surface) (clips s) ->
     filter isTimer others = playthrough surface (clips s) ->
     control (run formatTime noThrow s (Some pl)
                (StreamSettled (inr tracks) :: others)) = Completed).
Proof.
  intros Hne total w.
  pose proof (run_Sequenced formatTime throws s pl events Hne) as Hseq.
  destruct (Sequenced_prefix _ _ Hseq) as [[rest Hpre] Hall].
  fold w in Hpre, Hall, Hseq.
  split; [now exists rest|]. split; [exact Hall|]. split; [|split].
  - intros Hs. apply sorted_starts in Hs.
    rewrite <- (seeks_scriptFrom 0 (List.length (clips s))) in Hs.
    fold (script (clips s)) in Hs. rewrite Hpre, seeks_app, seeks_segmentCalls in Hs.
    now apply StronglySorted_app_l in Hs.
  - intros e i. apply segment_start. now destruct Hseq.
  - intros surface tracks others Hr Ho.
    now apply (run_plays_through_disturbed formatTime surface).
Qed.

Lemma segments_played_in_sequence_witness :
  Sample.queue <> [] /\
  (let w := run Sample.formatTime noThrow Sample.state (Some Sample.player)
              Runs.firstPlayed in
   let w' := step Sample.formatTime noThrow w TimeoutFires in
   control w' = AwaitSegment 1 /\
   processingStatus (app w') = "Recording clip 2 of 2 (0:20 - 0:25)") /\
  control (run Sample.formatTime noThrow Sample.state (Some Sample.player)
             (StreamSettled (inr 2) ::
              [IntervalFires (Sample.seconds 5); DataAvailable [Byte.x1a];
               IntervalFires (Sample.seconds 10); VisibilityChange hidden;
               TimeoutFires; StopFires;
               IntervalFires (Sample.seconds 20);
               IntervalFires (Sample.seconds 25); TimeoutFires]))
  = Completed.
Proof.
  pose proof (segments_played_in_sequence Sample.formatTime noThrow Sample.state
                Sample.player Runs.firstPlayed) as H.
  assert (Hne : clips Sample.state <> []) by discriminate.
  specialize (H Hne). cbv zeta in H.
  destruct H as (_ & _ & _ & Hstart & Hdone).
  split; [exact Hne|]. split.
  - split; [reflexivity|].
    destruct (Hstart TimeoutFires 1) as (clip & Hc & Hst & _).
    + reflexivity.
    + discriminate.
    + injection Hc as <-. exact Hst.
  - apply (Hdone Sample.surface 2).
    + repeat constructor.
    + reflexivity.
Defined.

(** ** Cancellation between two segments *)

(** C2, as the code has it.  The tab is hidden while the recorder is
    recording and clip [i] has been played and paused, before clip [i+1]
    starts.  The watcher stops the recorder, stops every track once,
    deregisters itself, reports the cancellation and clears the processing
    flag.  The loop is not interrupted: when the settle delay elapses,
    clip [i+1] is reported and started.  When the recorder's stop event is
    then handled, [stop()] is called on every track a second time. *)
Theorem watcher_fires_between_segments
    (formatTime : number -> string) (throws : Op -> option Exn)
    (w : World) (i : nat) (e : number) (clip : Clip) (tracks : MediaStream) :
  throws OpSeekTo = None -> throws OpPlayVideo = None ->
  listening w = true -> recorder w = Some recording -> stream w = Some tracks ->
  control w = AwaitSegment i -> poll w = Some (settling e) ->
  nth_error (snapshot w) (S i) = Some clip ->
  let w1 := step formatTime throws w (VisibilityChange hidden) in
  let w2 := step formatTime throws w1 TimeoutFires in
  let w3 := step formatTime throws w2 StopFires in
  (error (app w1) = Some cancelledMessage /\
   isProcessing (app w1) = false /\
   recorder w1 = Some inactive /\ stopEvent w1 = true /\
   listening w1 = false /\
   stream w1 = Some (map S tracks) /\
   trace w1 = trace w ++ RecorderStop ::
              map TrackStop (seq 0 (List.length tracks)) ++ [RemoveEventListener]) /\
  (control w2 = AwaitSegment (S i) /\
   trace w2 = trace w1 ++
              [Resolve; Progress (S i + 1) (List.length (snapshot w)) clip;
               SeekTo (start clip); PlayVideo; SetInterval 100]) /\
  (stream w3 = Some (map S (map S tracks)) /\
   error (app w3) = Some cancelledMessage).
Proof.
  destruct w as [a pr ch sn st rc li se po co tr]. cbn -[nth_error].
  intros Hseek Hplay -> -> -> -> -> Hn.
  unfold visibilityHandler. rewrite stopTracks_eq. unfold recorderStop.
  cbn -[nth_error showNat String.append].
  unfold tryCatch, iteration, playSegment, call, bind, act, read, ret, throw.
  cbn -[nth_error showNat String.append].
  rewrite Hn. cbn -[nth_error showNat String.append].
  rewrite Hseek. cbn -[nth_error showNat String.append].
  rewrite Hplay. cbn -[nth_error showNat String.append].
  unfold onstop. rewrite stopTracks_eq.
  cbn -[nth_error showNat String.append].
  repeat split.
  - now rewrite <- !app_assoc.
  - now rewrite <- !app_assoc.
  - destruct ch; reflexivity.
  - destruct ch; reflexivity.
Qed.

Lemma watcher_fires_between_segments_witness :
  let w := run Sample.formatTime noThrow Sample.state Runs.ready Runs.firstPlayed in
  let w2 := step Sample.formatTime noThrow
              (step Sample.formatTime noThrow w (VisibilityChange hidden))
              TimeoutFires in
  (listening w = true /\ recorder w = Some recording /\ stream w = Some [0; 0] /\
   control w = AwaitSegment 0 /\ poll w = Some (settling (Sample.seconds 10)) /\
   nth_error (snapshot w) 1 = Some Sample.second) /\
  control w2 = AwaitSegment 1.
Proof.
  intros w w2. split; [repeat split|].
  apply (watcher_fires_between_segments Sample.formatTime noThrow w 0
           (Sample.seconds 10) Sample.second [0; 0]
           eq_refl eq_refl eq_refl eq_refl eq_refl eq_refl eq_refl eq_refl).
Defined.

(** C2, as stated, fails: after the watcher fired between the two clips,
    the second clip is still played, and by the end every track has had
    [stop()] called twice. *)
Lemma cancelled_run_plays_next_segment :
  let w := run Sample.formatTime noThrow Sample.state Runs.ready
               Runs.hiddenAfterFirst in
  error (app w) = Some cancelledMessage /\
  In (SeekTo (Sample.seconds 20)) (trace w) /\
  control w = AwaitSegment 1 /\
  stream w = Some [2; 2].
Proof.
  vm_compute. repeat split.
  repeat first [left; reflexivity | right].
Qed.

(** * Further facts *)

(** ** Counting platform calls *)

Lemma count_app kind l1 l2 : count kind (l1 ++ l2) = count kind l1 + count kind l2.
Proof. unfold count. now rewrite filter_app, length_app. Qed.

Section ResourceFacts.
Variable formatTime : number -> string.
Variable throws : Op -> option Exn.

Lemma handleCreateVideo_Resources s p : Resources (handleCreateVideo (idle s p)).
Proof.
  unfold handleCreateVideo, Resources. cbn.
  destruct (_ || _); cbn; repeat split; auto; discriminate.
Qed.

Lemma step_Resources w e : Resources w -> Resources (step formatTime throws w e).
Proof.
  unfold Resources. intros H.
  by_event w e ltac:(cbn in *; unpack; repeat split; intros; try discriminate;
                     try congruence; tally; auto;
                     repeat match goal with
                            | H : true = true -> _ |- _ => specialize (H eq_refl)
                            | H : ?P -> _, H' : ?P |- _ => specialize (H H')
                            end; lia).
Qed.
End ResourceFacts.
Lemma released_again tracks : forallb (fun stops => 1 <=? stops) (map S tracks) = true.
Proof. induction tracks; cbn; auto. Qed.

Ltac close_leaf :=
  cbn in *; unfold live, pollShape, audible, released in *; cbn in *; unpack;
  repeat match goal with
         | H : muted ?p = _ |- context [muted ?p] => rewrite H
         end;
  cbn; repeat split; intros; try discriminate; try congruence;
  rewrite ?released_again; tally; auto; use_hyps; unpack;
  try congruence; try lia.

Section SurfaceFacts.
Variable formatTime : number -> string.
Variable throws : Op -> option Exn.

Lemma handleCreateVideo_Surface s p : Surface (handleCreateVideo (idle s p)).
Proof.
  unfold handleCreateVideo, Surface. cbn.
  destruct (_ || _); cbn; repeat split; auto.
Qed.

Lemma step_Surface w e :
  Inv w -> Surface w -> Surface (step formatTime throws w e).
Proof.
  unfold Inv, Surface. intros I H.
  by_event w e ltac:(close_leaf).
Qed.

Lemma handleCreateVideo_Teardown s p : Teardown (handleCreateVideo (idle s p)).
Proof.
  unfold handleCreateVideo, Teardown. cbn.
  destruct (_ || _); cbn; auto.
Qed.

Lemma step_Teardown w e :
  Inv w -> Teardown w -> Teardown (step formatTime throws w e).
Proof.
  unfold Inv, Teardown. intros I H.
  by_event w e ltac:(close_leaf).
Qed.
End SurfaceFacts.

(** ** Resources, surface and teardown in a run *)
Section RunInvariants.
Variable formatTime : number -> string.
Variable throws : Op -> option Exn.

Lemma run_Resources s p events : Resources (run formatTime throws s p events).
Proof.
  induction events as [|e events IH] using rev_ind.
  - apply handleCreateVideo_Resources.
  - rewrite run_snoc. now apply step_Resources.
Qed.

Lemma run_Surface s p events : Surface (run formatTime throws s p events).
Proof.
  induction events as [|e events IH] using rev_ind.
  - apply handleCreateVideo_Surface.
  - rewrite run_snoc. apply step_Surface; [apply run_Inv | exact IH].
Qed.

Lemma run_Teardown s p events : Teardown (run formatTime throws s p events).
Proof.
  induction events as [|e events IH] using rev_ind.
  - apply handleCreateVideo_Teardown.
  - rewrite run_snoc. apply step_Teardown; [apply run_Inv | exact IH].
Qed.
End RunInvariants.

(** ** The volume *)

Lemma volumeThenSeek_stops l seen :
  fold_left volumeThenSeek (map TrackStop l) seen = seen.
Proof. revert seen. induction l as [|i l IH]; intros seen; cbn; [reflexivity|apply IH]. Qed.

Lemma volumeThenSeek_lost l : fold_left volumeThenSeek l None = None.
Proof.
  induction l as [|a l IH]; cbn; [reflexivity|].
  destruct a; cbn; try exact IH. destruct (_ =? _); exact IH.
Qed.

Lemma volume_was_set l :
  fold_left volumeThenSeek l (Some false) = Some true -> In (SetVolume 100) l.
Proof.
  induction l as [|a l IH] using rev_ind; [discriminate|].
  rewrite fold_left_app. cbn [fold_left]. intros H. apply in_or_app.
  destruct a; cbn -[Nat.eqb] in H; try (left; apply IH; exact H).
  - destruct (v =? 100) eqn:E.
    + right. left. f_equal. now apply Nat.eqb_eq.
    + left. now apply IH.
  - left. apply IH.
    destruct (fold_left volumeThenSeek l (Some false)) as [[]|]; congruence.
Qed.

Lemma seek_needs_volume pre t post :
  fold_left volumeThenSeek (pre ++ SeekTo t :: post) (Some false) <> None ->
  In (SetVolume 100) pre.
Proof.
  rewrite fold_left_app. cbn [fold_left]. intros H. apply volume_was_set.
  destruct (fold_left volumeThenSeek pre (Some false)) as [[]|]; trivial;
    cbn in H; now rewrite volumeThenSeek_lost in H.
Qed.

Ltac volume_leaf :=
  cbn in *; rewrite ?fold_left_app, ?volumeThenSeek_stops; cbn;
  repeat match goal with
         | H : context [fold_left volumeThenSeek ?tr (Some false)] |- _ =>
             destruct (fold_left volumeThenSeek tr (Some false)) as [[]|]
         end;
  cbn in *; auto.

Section VolumeFacts.
Variable formatTime : number -> string.
Variable throws : Op -> option Exn.

Lemma handleCreateVideo_VolumeFirst s p : VolumeFirst (handleCreateVideo (idle s p)).
Proof.
  unfold handleCreateVideo, VolumeFirst. cbn. destruct (_ || _); cbn; exact I.
Qed.

Lemma step_VolumeFirst w e : VolumeFirst w -> VolumeFirst (step formatTime throws w e).
Proof.
  unfold VolumeFirst. intros H.
  by_event w e ltac:(volume_leaf).
Qed.

Lemma run_VolumeFirst s p events : VolumeFirst (run formatTime throws s p events).
Proof.
  induction events as [|e events IH] using rev_ind.
  - apply handleCreateVideo_VolumeFirst.
  - rewrite run_snoc. now apply step_VolumeFirst.
Qed.
End VolumeFacts.

(** X1.  In a run, whatever the events and whatever throws, the capture
    stream is requested at most once, the watcher is registered at most
    once, at most one recorder is made and it is started at most once,
    and [recorder.stop()] is never called more often than
    [recorder.start()]: at most once, and never on a recorder that was
    not started. *)
Theorem run_uses_each_resource_once
    (formatTime : number -> string) (throws : Op -> option Exn)
    (s : AppState) (p : option Player) (events : list Event) :
  let tr := trace (run formatTime throws s p events) in
  count isGetDisplayMedia tr <= 1 /\
  count isAddEventListener tr <= 1 /\
  count isNewMediaRecorder tr <= 1 /\
  count isRecorderStart tr <= 1 /\
  count isRecorderStop tr <= count isRecorderStart tr.
Proof.
  intros tr. pose proof (run_Resources formatTime throws s p events) as H.
  unfold Resources in H. fold tr in H. destruct H as (Hg & Ha & _ & Hr & _).
  split; [destruct (control _); lia|]. split; [exact Ha|].
  destruct (recorder _) as [[]|], (stopEvent _); intuition lia.
Qed.

(** X2.  In a run, every [playSegment] promise resolves at most once: the
    promises resolved and the one still pending add up to the interval
    timers made; and the player is paused exactly once for each promise
    that has resolved or is waiting out its settle delay. *)
Theorem promises_resolve_once
    (formatTime : number -> string) (throws : Op -> option Exn)
    (s : AppState) (p : option Player) (events : list Event) :
  let w := run formatTime throws s p events in
  count isResolve (trace w) + match poll w with Some _ => 1 | None => 0 end
    = timersMade (trace w) /\
  count isPauseVideo (trace w) =
    count isResolve (trace w) +
    match poll w with
    | Some q => if settle q then 1 else 0
    | None => 0
    end.
Proof.
  intros w. pose proof (run_Surface formatTime throws s p events) as H.
  unfold Surface in H. fold w in H. tauto.
Qed.

(** X3.  The volume is set before anything is played: in a run, whatever
    the events and whatever throws, every [seekTo] comes after the call
    [setVolume(100)]. *)
Theorem volume_set_before_every_seek
    (formatTime : number -> string) (throws : Op -> option Exn)
    (s : AppState) (p : option Player) (events : list Event)
    (before after : list Action) (t : number) :
  trace (run formatTime throws s p events) = before ++ SeekTo t :: after ->
  In (SetVolume 100) before.
Proof.
  intros H. apply (seek_needs_volume before t after). rewrite <- H.
  pose proof (run_VolumeFirst formatTime throws s p events) as V.
  unfold VolumeFirst in V.
  destruct (fold_left _ _ _); [discriminate|contradiction].
Qed.

Lemma volume_set_before_every_seek_witness :
  trace (run Sample.formatTime noThrow Sample.state Runs.ready Runs.firstPlayed) =
  [GetDisplayMedia; AddEventListener; NewMediaRecorder; RecorderStart; UnMute;
   SetVolume 100; Progress 1 2 Sample.first] ++
  SeekTo (Sample.seconds 5) ::
  [PlayVideo; SetInterval 100; GetCurrentTime (Sample.seconds 6);
   GetCurrentTime (Sample.seconds 10); ClearInterval; PauseVideo;
   SetTimeout 200] /\
  In (SetVolume 100)
     [GetDisplayMedia; AddEventListener; NewMediaRecorder; RecorderStart; UnMute;
      SetVolume 100; Progress 1 2 Sample.first].
Proof.
  split; [reflexivity|].
  apply (volume_set_before_every_seek Sample.formatTime noThrow Sample.state
           Runs.ready Runs.firstPlayed _
           [PlayVideo; SetInterval 100; GetCurrentTime (Sample.seconds 6);
            GetCurrentTime (Sample.seconds 10); ClearInterval; PauseVideo;
            SetTimeout 200]
           (Sample.seconds 5)).
  reflexivity.
Defined.

(** X4.  Once the loop of a run was entered and the run has not gone
    through the [catch] block, a processing flag that is down means that
    [stop()] was called on every track of the stream: the watcher and
    the stop handler both release the stream. *)
Theorem flag_down_means_tracks_released
    (formatTime : number -> string) (throws : Op -> option Exn)
    (s : AppState) (p : option Player) (events : list Event) :
  let w := run formatTime throws s p events in
  (exists i, control w = AwaitSegment i) \/ control w = Completed ->
  isProcessing (app w) = false ->
  exists tracks, stream w = Some tracks /\ Forall (fun stops => 1 <= stops) tracks.
Proof.
  intros w Hc Hp. pose proof (run_Teardown formatTime throws s p events) as H.
  unfold Teardown in H. fold w in H.
  assert (R : released w = true).
  { destruct Hc as [[i Hc]|Hc]; rewrite Hc in H; now apply H. }
  unfold released in R. destruct (stream w) as [tracks|]; [|discriminate].
  exists tracks. split; [reflexivity|].
  apply Forall_forall. intros n Hn.
  rewrite forallb_forall in R. apply Nat.leb_le. now apply R.
Qed.

Lemma flag_down_means_tracks_released_witness :
  let w := run Sample.formatTime noThrow Sample.state Runs.ready Runs.noData in
  (((exists i, control w = AwaitSegment i) \/ control w = Completed) /\
   isProcessing (app w) = false) /\
  exists tracks, stream w = Some tracks /\ Forall (fun stops => 1 <= stops) tracks.
Proof.
  intros w.
  assert (H : (exists i, control w = AwaitSegment i) \/ control w = Completed)
    by (right; reflexivity).
  split; [split; [exact H|reflexivity]|].
  exact (flag_down_means_tracks_released Sample.formatTime noThrow Sample.state
           Runs.ready Runs.noData H eq_refl).
Defined.

(** ** A refused request *)

Section RefusalFacts.
Variable formatTime : number -> string.
Variable throws : Op -> option Exn.

Lemma closed_step w e :
  abandoned w -> recorder w = None -> step formatTime throws w e = w.
Proof.
  destruct w as [a pr ch sn st rc li se po co tr].
  unfold abandoned. cbn. intros (-> & -> & -> & ->) ->.
  destruct e; reflexivity.
Qed.

Lemma closed_events w events :
  abandoned w -> recorder w = None ->
  fold_left (step formatTime throws) events w = w.
Proof.
  intros H1 H2. induction events as [|e events IH]; cbn; [reflexivity|].
  now rewrite closed_step.
Qed.
End RefusalFacts.

(** X6.  When the request for the capture stream is refused, the run is
    over for good: the [catch] block reports the message that belongs to
    the exception and lowers the processing flag, no watcher was
    registered, no recorder was made, no segment is played, and no later
    event changes anything. *)
Theorem refused_request_ends_run
    (formatTime : number -> string) (throws : Op -> option Exn)
    (s : AppState) (pl : Player) (err : Exn) (events : list Event) :
  clips s <> [] ->
  let w := run formatTime throws s (Some pl) (StreamSettled (inl err) :: events) in
  w = catchBlock err (handleCreateVideo (idle s (Some pl))) /\
  trace w = [GetDisplayMedia; RemoveEventListener] /\
  error (app w) = Some (errorMessageOf err) /\
  isProcessing (app w) = false /\
  stream w = None /\ recorder w = None /\ listening w = false.
Proof.
  intros Hne w.
  assert (E : w = catchBlock err (handleCreateVideo (idle s (Some pl)))).
  { unfold w, run. cbn [fold_left].
    assert (S1 : step formatTime throws (handleCreateVideo (idle s (Some pl)))
                   (StreamSettled (inl err)) =
                 catchBlock err (handleCreateVideo (idle s (Some pl)))).
    { unfold handleCreateVideo. cbn.
      destruct (clips s); [congruence|reflexivity]. }
    rewrite S1. apply closed_events.
    - unfold handleCreateVideo. cbn. destruct (clips s); [congruence|].
      repeat split.
    - unfold handleCreateVideo. cbn. now destruct (clips s). }
  split; [exact E|]. rewrite E. unfold handleCreateVideo. cbn.
  destruct (clips s); [congruence|]. repeat split.
Qed.

Lemma refused_request_ends_run_witness :
  Sample.queue <> [] /\
  error (app (run Sample.formatTime noThrow Sample.state Runs.ready
                [StreamSettled (inl (DOMException "NotAllowedError" "Permission denied"));
                 VisibilityChange hidden; TimeoutFires; StopFires])) =
  Some "Permission to share screen was denied. Please try again and grant the necessary permissions.".
Proof.
  split; [discriminate|].
  apply (refused_request_ends_run Sample.formatTime noThrow Sample.state
           Sample.player (DOMException "NotAllowedError" "Permission denied")
           [VisibilityChange hidden; TimeoutFires; StopFires]).
  discriminate.
Defined.

(** ** The watcher acts once *)

Section WatcherOnceFacts.
Variable formatTime : number -> string.
Variable throws : Op -> option Exn.

Lemma deregistered_step w e :
  control w <> Idle -> control w <> AwaitStream -> listening w = false ->
  control (step formatTime throws w e) <> Idle /\
  control (step formatTime throws w e) <> AwaitStream /\
  listening (step formatTime throws w e) = false.
Proof.
  intros H1 H2 H3.
  by_event w e ltac:(cbn in *; subst; repeat split; congruence).
Qed.

Lemma deregistered_events w events :
  control w <> Idle -> control w <> AwaitStream -> listening w = false ->
  listening (fold_left (step formatTime throws) events w) = false.
Proof.
  revert w. induction events as [|e events IH]; intros w H1 H2 H3; cbn; [exact H3|].
  destruct (deregistered_step w e H1 H2 H3) as (? & ? & ?). now apply IH.
Qed.

Lemma hidden_deregisters w :
  control (step formatTime throws w (VisibilityChange hidden)) = control w /\
  listening (step formatTime throws w (VisibilityChange hidden)) = false.
Proof.
  destruct w as [a pr ch sn st rc li se po co tr]. cbn.
  destruct li; [|auto]. unfold visibilityHandler. rewrite stopTracks_eq.
  unfold recorderStop. destruct rc as [[]|], st; cbn; auto.
Qed.
End WatcherOnceFacts.

(** X7.  The watcher acts at most once in a run: after it has fired it is
    deregistered and nothing registers it again, so whatever happens
    later, a further visibility change has no effect. *)
Theorem watcher_acts_once
    (formatTime : number -> string) (throws : Op -> option Exn)
    (s : AppState) (p : option Player) (events later : list Event)
    (v : Visibility) :
  let w := run formatTime throws s p events in
  listening w = true ->
  let w' := fold_left (step formatTime throws) later
              (step formatTime throws w (VisibilityChange hidden)) in
  listening w' = false /\
  step formatTime throws w' (VisibilityChange v) = w'.
Proof.
  intros w Hl w'.
  pose proof (run_Inv formatTime throws s p events) as I.
  unfold Inv in I. fold w in I. destruct I as (_ & _ & I).
  destruct (hidden_deregisters formatTime throws w) as [Hc Hd].
  assert (L : listening w' = false).
  { apply deregistered_events; trivial; rewrite Hc; intros E; rewrite E in I;
      destruct I as (_ & I & _); congruence. }
  split; [exact L|].
  destruct w'. cbn in L. subst. reflexivity.
Qed.

Lemma watcher_acts_once_witness :
  let w := run Sample.formatTime noThrow Sample.state Runs.ready Runs.firstPlayed in
  let w' := fold_left (step Sample.formatTime noThrow) [TimeoutFires; StopFires]
              (step Sample.formatTime noThrow w (VisibilityChange hidden)) in
  listening w = true /\
  step Sample.formatTime noThrow w' (VisibilityChange hidden) = w'.
Proof.
  intros w w'. split; [reflexivity|].
  apply (watcher_acts_once Sample.formatTime noThrow Sample.state Runs.ready
           Runs.firstPlayed [TimeoutFires; StopFires] hidden eq_refl).
Defined.

(** ** A surface that does not reach the end *)

Section StallFacts.
Variable formatTime : number -> string.
Variable throws : Op -> option Exn.

Lemma stalled_step w i end_ e :
  control w = AwaitSegment i -> poll w = Some (polling end_) ->
  beforeEnd end_ e ->
  control (step formatTime throws w e) = AwaitSegment i /\
  poll (step formatTime throws w e) = Some (polling end_) /\
  segmentCalls (trace (step formatTime throws w e)) = segmentCalls (trace w).
Proof.
  intros Hc Hp He. destruct e as [r|t| |v|d| ].
  - destruct w as [a pr ch sn st rc li se po co tr]. cbn in *. subst. auto.
  - rewrite (tick_below formatTime throws w end_ t Hp (He t eq_refl)).
    cbn. unfold segmentCalls. rewrite filter_app. cbn. now rewrite app_nil_r.
  - destruct w as [a pr ch sn st rc li se po co tr]. cbn in *.
    subst. auto.
  - destruct w as [a pr ch sn st rc li se po co tr]. cbn in *. subst.
    destruct li; [|auto]. unfold visibilityHandler. destruct v; [auto|].
    rewrite stopTracks_eq. unfold recorderStop, segmentCalls.
    destruct rc as [[]|], st; cbn; repeat split;
      repeat rewrite filter_app; rewrite ?filter_stops by reflexivity;
      cbn; now rewrite ?app_nil_r.
  - destruct w as [a pr ch sn st rc li se po co tr]. cbn in *. subst.
    destruct rc; [|auto]. unfold ondataavailable. cbn. destruct d; auto.
  - destruct w as [a pr ch sn st rc li se po co tr]. cbn in *. subst.
    destruct se; [|auto]. unfold onstop. rewrite stopTracks_eq.
    unfold segmentCalls. cbn.
    destruct ch, st; cbn; repeat split;
      repeat rewrite filter_app; rewrite ?filter_stops by reflexivity;
      cbn; now rewrite ?app_nil_r.
Qed.
End StallFacts.

(** X8.  [playSegment] has no timeout.  While a segment is being sampled,
    any events at all - samples before the end of the clip, stray
    timeouts, visibility changes, recorder events - leave the loop waiting
    at that segment with its timer polling: nothing is resolved and no
    further segment is reported or started. *)
Theorem stalled_surface_hangs_run
    (formatTime : number -> string) (throws : Op -> option Exn)
    (w : World) (i : nat) (end_ : number) (events : list Event) :
  control w = AwaitSegment i -> poll w = Some (polling end_) ->
  Forall (beforeEnd end_) events ->
  let w' := fold_left (step formatTime throws) events w in
  control w' = AwaitSegment i /\ poll w' = Some (polling end_) /\
  segmentCalls (trace w') = segmentCalls (trace w).
Proof.
  intros Hc Hp He. revert w Hc Hp.
  induction He as [|e events He _ IH]; intros w Hc Hp; cbn; [auto|].
  destruct (stalled_step formatTime throws w i end_ e Hc Hp He) as (Hc' & Hp' & Hs).
  destruct (IH _ Hc' Hp') as (? & ? & Hs'). repeat split; congruence.
Qed.

Lemma stalled_surface_hangs_run_witness :
  let w := run Sample.formatTime noThrow Sample.state Runs.ready
               [StreamSettled (inr 2)] in
  let events := [IntervalFires (Sample.seconds 6); TimeoutFires;
                 VisibilityChange hidden; DataAvailable [Byte.x1a];
                 StopFires; IntervalFires Num.NaN;
                 IntervalFires (Sample.seconds 9)] in
  (control w = AwaitSegment 0 /\ poll w = Some (polling (Sample.seconds 10)) /\
   Forall (beforeEnd (Sample.seconds 10)) events) /\
  control (fold_left (step Sample.formatTime noThrow) events w) = AwaitSegment 0.
Proof.
  intros w events.
  assert (B : Forall (beforeEnd (Sample.seconds 10)) events).
  { unfold events. repeat constructor; intros t [=]; subst; reflexivity. }
  split; [repeat split; exact B|].
  apply (stalled_surface_hangs_run Sample.formatTime noThrow w 0
           (Sample.seconds 10) events eq_refl eq_refl B).
Defined.

(** ** The chunks and the artifact *)

Lemma concat_hasData (ds : list Blob) : List.concat (filter hasData ds) = List.concat ds.
Proof.
  induction ds as [|d ds IH]; [reflexivity|].
  cbn. destruct d as [|b d]; cbn; now rewrite IH.
Qed.

Lemma length_concat_sum (ds : list Blob) :
  List.length (List.concat ds) = list_sum (map (@List.length Byte.byte) ds).
Proof.
  induction ds as [|d ds IH]; [reflexivity|].
  cbn. now rewrite length_app, IH.
Qed.

Lemma concat_nil_inv (ds : list Blob) :
  Forall (fun d => d <> []) ds -> List.concat ds = [] -> ds = [].
Proof.
  intros H E. destruct ds as [|d ds]; [reflexivity|].
  inversion H; subst. cbn in E. apply app_eq_nil in E. tauto.
Qed.

Lemma hasData_nonempty (ds : list Blob) : Forall (fun d => d <> []) (filter hasData ds).
Proof.
  induction ds as [|d ds IH]; cbn; [constructor|].
  destruct d; cbn; [exact IH|]. constructor; [discriminate|exact IH].
Qed.

Section ChunkFacts.
Variable formatTime : number -> string.
Variable throws : Op -> option Exn.

Lemma data_accumulates w ds :
  recorder w <> None ->
  fold_left (step formatTime throws) (map DataAvailable ds) w =
  withChunks (recordedChunks w ++ filter hasData ds) w.
Proof.
  intros Hr. revert w Hr. induction ds as [|d ds IH]; intros w Hr.
  - cbn. destruct w. unfold withChunks. cbn. now rewrite app_nil_r.
  - cbn [map fold_left]. rewrite IH.
    + destruct w as [a pr ch sn st rc li se po co tr]. cbn in *.
      destruct rc; [|congruence]. unfold ondataavailable, withChunks, hasData.
      cbn. destruct d; cbn; [reflexivity|]. now rewrite <- app_assoc.
    + destruct w as [a pr ch sn st rc li se po co tr]. cbn in *.
      destruct rc; [|congruence]. unfold ondataavailable. cbn.
      destruct d; cbn; discriminate.
Qed.
End ChunkFacts.

(** X9.  The artifact is all the data the recorder delivered, in the order
    of arrival.  When the stop event is handled after the chunks [ds]
    arrived, the object URL names the concatenation of the chunks on
    record followed by [ds] - empty chunks are dropped and add nothing -
    and its size is the sum of the chunk sizes; if that is no data at all,
    no URL is made. *)
Theorem artifact_is_all_data_in_order
    (formatTime : number -> string) (throws : Op -> option Exn)
    (w : World) (ds : list Blob) :
  recorder w <> None -> stopEvent w = true ->
  Forall (fun d => d <> []) (recordedChunks w) ->
  let all := List.concat (recordedChunks w ++ ds) in
  let w' := step formatTime throws
              (fold_left (step formatTime throws) (map DataAvailable ds) w)
              StopFires in
  finishedVideoUrl (app w') =
    match all with
    | [] => finishedVideoUrl (app w)
    | _ => Some all
    end /\
  List.length all = list_sum (map (@List.length Byte.byte) (recordedChunks w ++ ds)).
Proof.
  intros Hr Hs Hne all w'. split; [|apply length_concat_sum].
  assert (N : Forall (fun d => d <> []) (recordedChunks w ++ filter hasData ds)).
  { apply Forall_app. split; [exact Hne|apply hasData_nonempty]. }
  assert (A : all = List.concat (recordedChunks w ++ filter hasData ds)).
  { unfold all. now rewrite !concat_app, concat_hasData. }
  unfold w'. rewrite (data_accumulates formatTime throws w ds Hr), A.
  clear A all w'.
  destruct w as [a pr ch sn st rc li se po co tr]. cbn in *. subst se.
  unfold onstop. rewrite stopTracks_eq. cbn.
  destruct (ch ++ filter hasData ds) as [|c cs].
  - cbn. destruct st; reflexivity.
  - destruct c as [|b c]; [inversion N; congruence|].
    cbn. destruct st; reflexivity.
Qed.

Lemma artifact_is_all_data_in_order_witness :
  let w := run Sample.formatTime noThrow Sample.state Runs.ready
               (StreamSettled (inr 2) :: playthrough Sample.surface Sample.queue) in
  let ds := [[Byte.x1a; Byte.x45]; []; [Byte.xdf]] in
  (recorder w <> None /\ stopEvent w = true /\
   Forall (fun d => d <> []) (recordedChunks w)) /\
  finishedVideoUrl
    (app (step Sample.formatTime noThrow
            (fold_left (step Sample.formatTime noThrow) (map DataAvailable ds) w)
            StopFires)) = Some [Byte.x1a; Byte.x45; Byte.xdf].
Proof.
  intros w ds.
  assert (R : recorder w <> None) by discriminate.
  assert (F : Forall (fun d => d <> []) (recordedChunks w)) by constructor.
  split; [repeat split; assumption|].
  apply (artifact_is_all_data_in_order Sample.formatTime noThrow w ds R eq_refl F).
Defined.

(** ** Editing the queue *)

Lemma filter_filter_comm {A} (f g : A -> bool) l :
  filter f (filter g l) = filter g (filter f l).
Proof.
  induction l as [|x l IH]; [reflexivity|].
  cbn. destruct (f x) eqn:Ef, (g x) eqn:Eg; cbn; rewrite ?Ef, ?Eg, IH; reflexivity.
Qed.

Lemma StronglySorted_filter {A} (R : A -> A -> Prop) (f : A -> bool) l :
  StronglySorted R l -> StronglySorted R (filter f l).
Proof.
  induction 1 as [|x l Hs IH Hf]; cbn; [constructor|].
  destruct (f x); [|exact IH]. constructor; [exact IH|].
  apply Forall_forall. intros y Hy. apply filter_In in Hy.
  rewrite Forall_forall in Hf. now apply Hf.
Qed.

Lemma Forall_filter {A} (P : A -> Prop) (f : A -> bool) l :
  Forall P l -> Forall P (filter f l).
Proof.
  intros H. apply Forall_forall. intros y Hy. apply filter_In in Hy.
  rewrite Forall_forall in H. now apply H.
Qed.

Lemma validClip_numeric c : validClip c -> numericStart c.
Proof. intros H. now destruct (lt_numeric _ _ H). Qed.

Lemma lt_of_accepted a b :
  Num.ge a b = false -> Num.isNaN a = false -> Num.isNaN b = false ->
  Num.lt a b = true.
Proof.
  unfold Num.ge, Num.lt.
  destruct a, b; cbn; try discriminate; try reflexivity.
  destruct (q ?= q0)%Q; try discriminate; reflexivity.
Qed.

Lemma queueOK_numeric q : queueOK q -> Forall numericStart q.
Proof.
  intros [_ H]. eapply Forall_impl; [|exact H]. apply validClip_numeric.
Qed.

Lemma remove_absent (removed : string) (q : list Clip) :
  Forall (fun c => id c <> removed) q ->
  filter (fun clip => negb (String.eqb (id clip) removed)) q = q.
Proof.
  intros H. apply forallb_filter_id. apply forallb_forall. intros c Hc.
  rewrite Forall_forall in H. apply negb_true_iff, String.eqb_neq. now apply H.
Qed.

(** X10.  [handleRemoveClip] removes every clip that has the given id and
    nothing else: a clip is in the new queue exactly if it was in the old
    one under another id.  The queue stays sorted with valid clips, and
    removing an id that no clip has leaves the state as it is. *)
Theorem handleRemoveClip_removes_the_id (removed : string) (s : AppState) :
  let s' := handleRemoveClip removed s in
  (forall c, In c (clips s') <-> In c (clips s) /\ id c <> removed) /\
  (queueOK (clips s) -> queueOK (clips s')) /\
  (Forall (fun c => id c <> removed) (clips s) -> s' = s) /\
  handleRemoveClip removed s' = s'.
Proof.
  intros s'. unfold s', handleRemoveClip. cbn.
  split; [|split; [|split]].
  - intros c. rewrite filter_In, negb_true_iff, String.eqb_neq. reflexivity.
  - intros [Hs Hv]. split; [now apply StronglySorted_filter|now apply Forall_filter].
  - intros H. destruct s as [q st en ip ps fv er]. unfold setClips. cbn in *.
    f_equal. now apply remove_absent.
  - unfold setClips. cbn. f_equal.
    induction (clips s) as [|c q IH]; [reflexivity|].
    cbn. destruct (negb (id c =? removed)%string) eqn:E; cbn; rewrite ?E, IH; reflexivity.
Qed.

Section QueueEditingFacts.
Variable parseTimeToSeconds : string -> number.

Lemma handleAddClip_accepts (now : string) (s : AppState) :
  Num.lt (parseTimeToSeconds (startTime s)) (parseTimeToSeconds (endTime s)) = true ->
  clips (handleAddClip parseTimeToSeconds now s) =
  sort byStart (clips s ++ [mkClip now (parseTimeToSeconds (startTime s))
                                      (parseTimeToSeconds (endTime s))]).
Proof.
  intros H. destruct (lt_numeric _ _ H) as (Na & Nb & Hge).
  unfold handleAddClip. cbn. rewrite Hge.
  unfold numeric in Na, Nb. now rewrite Na, Nb.
Qed.

Lemma handleAddClip_queueOK (now : string) (s : AppState) :
  queueOK (clips s) -> queueOK (clips (handleAddClip parseTimeToSeconds now s)).
Proof.
  intros H. unfold handleAddClip. cbn.
  destruct (Num.ge _ _) eqn:G; [exact H|].
  destruct (Num.isNaN (parseTimeToSeconds (startTime s))) eqn:Na; [exact H|].
  destruct (Num.isNaN (parseTimeToSeconds (endTime s))) eqn:Nb; [exact H|].
  cbn. pose proof (lt_of_accepted _ _ G Na Nb) as L.
  set (new := mkClip now _ _).
  assert (V : Forall validClip (clips s ++ [new])).
  { apply Forall_app. split; [apply H|]. repeat constructor. exact L. }
  split.
  - apply sort_sorted. eapply Forall_impl; [|exact V]. apply validClip_numeric.
  - eapply Permutation_Forall; [apply sort_perm|exact V].
Qed.

(** X11.  Adding a clip and then removing its id gives back the old queue
    without the clips that had that id already (none, when the id is
    new): insertion followed by removal leaves the order of the other
    clips as it was.  Ids are [Date.now()] texts, so two clips added in
    the same millisecond share one and are removed together. *)
Theorem add_then_remove (now : string) (s : AppState) :
  Num.lt (parseTimeToSeconds (startTime s)) (parseTimeToSeconds (endTime s)) = true ->
  queueOK (clips s) ->
  let s' := handleRemoveClip now (handleAddClip parseTimeToSeconds now s) in
  clips s' = clips (handleRemoveClip now s) /\
  (Forall (fun c => id c <> now) (clips s) -> clips s' = clips s).
Proof.
  intros Hlt Hq s'.
  assert (E : clips s' = clips (handleRemoveClip now s)).
  { unfold s', handleRemoveClip. cbn. rewrite (handleAddClip_accepts now s Hlt).
    set (new := mkClip now _ _). set (keep := fun clip => negb (id clip =? now)%string).
    pose proof (queueOK_numeric _ Hq) as Nq.
    assert (Nl : Forall numericStart (clips s ++ [new])).
    { apply Forall_app. split; [exact Nq|]. repeat constructor.
      now destruct (lt_numeric _ _ Hlt). }
    apply stable_sorted_unique.
    - apply Forall_filter. now apply sort_numeric.
    - now apply Forall_filter.
    - apply StronglySorted_filter. now apply sort_sorted.
    - apply StronglySorted_filter. apply Hq.
    - intros k. rewrite filter_filter_comm, sort_stable, filter_filter_comm.
      f_equal. rewrite filter_app. cbn. unfold keep at 2. cbn.
      rewrite String.eqb_refl. cbn. apply app_nil_r. }
  split; [exact E|]. intros H. rewrite E.
  unfold handleRemoveClip. cbn. now apply remove_absent.
Qed.
End QueueEditingFacts.

Lemma add_then_remove_witness :
  let s := setEndTime "0:08" (setStartTime "0:05" Sample.state) in
  (Num.lt (Sample.parseTimeToSeconds (startTime s))
          (Sample.parseTimeToSeconds (endTime s)) = true /\
   queueOK (clips s)) /\
  clips (handleRemoveClip "1700000000003"
           (handleAddClip Sample.parseTimeToSeconds "1700000000003" s)) =
  Sample.queue.
Proof.
  intros s.
  assert (Q : queueOK (clips s)).
  { split; repeat constructor. }
  split; [split; [reflexivity|exact Q]|].
  apply (add_then_remove Sample.parseTimeToSeconds "1700000000003" s eq_refl Q).
  repeat constructor; discriminate.
Defined.

(** ** The editor *)

Section EditorFacts.
Variable extractVideoId : string -> option string.
Variable parseTimeToSeconds : string -> number.
Variable formatTime : number -> string.
Variable stringify : option string -> list Clip -> string.
Variable storageThrows : string -> option Exn.

Lemma perform_queueOK e a :
  queueOK (clips (form e)) ->
  queueOK (clips (form (perform extractVideoId parseTimeToSeconds formatTime stringify
                                storageThrows e a))).
Proof.
  intros H. destruct a as [| | | | | | |ref t type| |]; cbn; trivial.
  - unfold handleLoadVideo. cbn. destruct (truthy _); cbn; [|exact H].
    split; constructor.
  - now apply handleAddClip_queueOK.
  - destruct H as [Hs Hv].
    split; [now apply StronglySorted_filter|now apply Forall_filter].
  - unfold handleSaveClips.
    destruct (_ || _); [exact H|]. destruct (storageThrows _); exact H.
  - unfold handleSetTimeFromPlayer. destruct ref; [destruct type|]; exact H.
  - unfold saveStatusTimeout. destruct (saveTimers e); exact H.
Qed.

Lemma perform_SaveOK e a :
  SaveOK stringify e ->
  SaveOK stringify
    (perform extractVideoId parseTimeToSeconds formatTime stringify storageThrows e a).
Proof.
  intros [Hs Hl]. destruct a; cbn; try (split; assumption).
  - unfold handleLoadVideo. cbn. destruct (truthy _); cbn; split; assumption.
  - unfold handleSaveClips.
    destruct (negb (truthy (videoId e))) eqn:Ev; cbn; [split; assumption|].
    destruct (clips (form e)) as [|c q] eqn:Eq; cbn; [split; assumption|].
    destruct (storageThrows _); cbn; [split; assumption|].
    split; [right; split; [reflexivity|cbn; lia]|].
    right. exists (videoId e), (c :: q). apply negb_false_iff in Ev.
    repeat split; [exact Ev|discriminate].
  - unfold saveStatusTimeout, SaveOK.
    destruct (saveTimers e) as [|n].
    + split; [|exact Hl]. destruct Hs as [H|[_ H]]; [now left|lia].
    + split; [now left|exact Hl].
Qed.
End EditorFacts.

(** X12.  Whatever the user does in the editor - typing, loading a video,
    adding and removing clips, taking times from the player, saving,
    dismissing the error - a queue of valid clips (start < end) in
    ascending order of start stays one. *)
Theorem editing_keeps_queue_sorted_and_valid
    (extractVideoId : string -> option string)
    (parseTimeToSeconds : string -> number) (formatTime : number -> string)
    (stringify : option string -> list Clip -> string)
    (storageThrows : string -> option Exn)
    (e : Editor) (actions : list UserAction) :
  queueOK (clips (form e)) ->
  queueOK (clips (form (fold_left
    (perform extractVideoId parseTimeToSeconds formatTime stringify storageThrows)
    actions e))).
Proof.
  revert e. induction actions as [|a actions IH]; intros e H; cbn; [exact H|].
  apply IH. now apply perform_queueOK.
Qed.

Lemma editing_keeps_queue_sorted_and_valid_witness :
  let actions := [TypeStartTime "0:05"; TypeEndTime "0:08"; ClickAddClip "1700000000003";
                  TypeStartTime "0:25"; TypeEndTime "0:20"; ClickAddClip "1700000000004";
                  ClickRemoveClip "1700000000001"; ClickSaveClips] in
  queueOK (clips (form SampleEditor.editor)) /\
  queueOK (clips (form (fold_left
    (perform SampleEditor.extractVideoId Sample.parseTimeToSeconds Sample.formatTime
             SampleEditor.stringify SampleEditor.storageFree)
    actions SampleEditor.editor))).
Proof.
  intros actions.
  assert (Q : queueOK (clips (form SampleEditor.editor))).
  { split; repeat constructor. }
  split; [exact Q|].
  exact (editing_keeps_queue_sorted_and_valid SampleEditor.extractVideoId
           Sample.parseTimeToSeconds Sample.formatTime SampleEditor.stringify
           SampleEditor.storageFree SampleEditor.editor actions Q).
Defined.

(** X13.  Whatever the user does, the save status is either empty or
    [Saved!] with a timer pending that will clear it, and what is in
    storage is the text of a video with a non-empty queue: an empty queue
    or a missing video id is never written, and a write that the storage
    refuses changes nothing there. *)
Theorem saving_never_stores_nothing
    (extractVideoId : string -> option string)
    (parseTimeToSeconds : string -> number) (formatTime : number -> string)
    (stringify : option string -> list Clip -> string)
    (storageThrows : string -> option Exn)
    (e : Editor) (actions : list UserAction) :
  SaveOK stringify e ->
  SaveOK stringify (fold_left
    (perform extractVideoId parseTimeToSeconds formatTime stringify storageThrows)
    actions e).
Proof.
  revert e. induction actions as [|a actions IH]; intros e H; cbn; [exact H|].
  apply IH. now apply perform_SaveOK.
Qed.

Lemma saving_never_stores_nothing_witness :
  let actions := [ClickSaveClips; ClickLoadVideo; ClickSaveClips; SaveStatusTimeout] in
  let e := fold_left
    (perform SampleEditor.extractVideoId Sample.parseTimeToSeconds Sample.formatTime
             SampleEditor.stringify SampleEditor.storageFree)
    actions SampleEditor.editor in
  SaveOK SampleEditor.stringify SampleEditor.editor /\
  SaveOK SampleEditor.stringify e /\
  localStorage e = Some "dQw4w9WgXcQ:2" /\ clips (form e) = [].
Proof.
  intros actions e.
  assert (S0 : SaveOK SampleEditor.stringify SampleEditor.editor).
  { split; left; reflexivity. }
  split; [exact S0|]. split; [|split; reflexivity].
  exact (saving_never_stores_nothing SampleEditor.extractVideoId
           Sample.parseTimeToSeconds Sample.formatTime SampleEditor.stringify
           SampleEditor.storageFree SampleEditor.editor actions S0).
Defined.





(** X16.  Taking the start and then the end from the player and adding
    the clip puts into the queue the clip whose times are the parsed
    texts of the two formatted positions, provided the first parses
    before the second, and clears the two fields and the error.  Without
    a player, taking a time only reports that the player is missing. *)
Theorem times_from_player_make_the_clip
    (parseTimeToSeconds : string -> number) (formatTime : number -> string)
    (pl : Player) (t1 t2 : number) (now : string) (s : AppState) :
  let a := parseTimeToSeconds (formatTime t1) in
  let b := parseTimeToSeconds (formatTime t2) in
  let picked := handleSetTimeFromPlayer formatTime (Some pl) t2 endField
                  (handleSetTimeFromPlayer formatTime (Some pl) t1 startField s) in
  let s' := handleAddClip parseTimeToSeconds now picked in
  Num.lt a b = true ->
  (In (mkClip now a b) (clips s') /\
   List.length (clips s') = S (List.length (clips s)) /\
   startTime s' = "" /\ endTime s' = "" /\ error s' = None) /\
  (forall t type,
     handleSetTimeFromPlayer formatTime None t type s =
     setError (Some "Player not available. Please load a video first.") s).
Proof.
  intros a b picked s' Hlt. split; [|reflexivity].
  assert (E : clips s' = sort byStart (clips s ++ [mkClip now a b])).
  { unfold s'. now rewrite handleAddClip_accepts. }
  assert (P : Permutation (clips s ++ [mkClip now a b]) (clips s')).
  { rewrite E. apply sort_perm. }
  split; [|split].
  - eapply Permutation_in; [exact P|]. apply in_or_app. right. now left.
  - rewrite <- (Permutation_length P), length_app. cbn. lia.
  - unfold s', handleAddClip. cbn. fold a b.
    destruct (lt_numeric _ _ Hlt) as (Na & Nb & Hge). rewrite Hge.
    unfold numeric in Na, Nb. rewrite Na, Nb. repeat split.
Qed.

Lemma times_from_player_make_the_clip_witness :
  let s' := handleAddClip Sample.parseTimeToSeconds "1700000000005"
              (handleSetTimeFromPlayer Sample.formatTime (Some Sample.player)
                 (Sample.seconds 10) endField
                 (handleSetTimeFromPlayer Sample.formatTime (Some Sample.player)
                    (Sample.seconds 5) startField Sample.state)) in
  Num.lt (Sample.parseTimeToSeconds (Sample.formatTime (Sample.seconds 5)))
         (Sample.parseTimeToSeconds (Sample.formatTime (Sample.seconds 10))) = true /\
  In (mkClip "1700000000005" (Sample.seconds 5) (Sample.seconds 10)) (clips s').
Proof.
  intros s'. split; [reflexivity|].
  apply (times_from_player_make_the_clip Sample.parseTimeToSeconds Sample.formatTime
           Sample.player (Sample.seconds 5) (Sample.seconds 10) "1700000000005"
           Sample.state eq_refl).
Defined.

(** X17.  [handleAddClip] tells the two rejections apart: a time that does
    not parse to a number is reported as an invalid format, whatever the
    other field holds; two numbers with start >= end - equal times
    included - are reported as an end that must come after the start. *)
Theorem handleAddClip_messages
    (parseTimeToSeconds : string -> number) (now : string) (s : AppState) :
  let a := parseTimeToSeconds (startTime s) in
  let b := parseTimeToSeconds (endTime s) in
  (Num.isNaN a = true \/ Num.isNaN b = true ->
   error (handleAddClip parseTimeToSeconds now s) =
   Some "Invalid time format. Please use MM:SS or HH:MM:SS.") /\
  (Num.isNaN a = false -> Num.isNaN b = false -> Num.le b a = true ->
   error (handleAddClip parseTimeToSeconds now s) =
   Some "End time must be after start time.") /\
  (Num.lt a b = true -> error (handleAddClip parseTimeToSeconds now s) = None).
Proof.
  intros a b. unfold handleAddClip. cbn. fold a b. split; [|split].
  - intros H.
    assert (G : Num.ge a b = false).
    { destruct H as [H|H]; destruct a, b; try discriminate; reflexivity. }
    rewrite G. destruct H as [H|H]; rewrite H; [reflexivity|].
    now rewrite orb_true_r.
  - intros Na Nb H.
    assert (G : Num.ge a b = true).
    { unfold Num.ge, Num.le in *. destruct a, b; cbn in *; try discriminate;
        try reflexivity.
      destruct (Qcompare_spec q q0), (Qcompare_spec q0 q);
        try reflexivity; try discriminate; exfalso; lra. }
    now rewrite G.
  - intros H. destruct (lt_numeric _ _ H) as (Na & Nb & G). rewrite G.
    unfold numeric in Na, Nb. now rewrite Na, Nb.
Qed.

Lemma handleAddClip_messages_witness :
  let s := setEndTime "0:10" (setStartTime "0:10" Sample.state) in
  (Num.isNaN (Sample.parseTimeToSeconds (startTime s)) = false /\
   Num.isNaN (Sample.parseTimeToSeconds (endTime s)) = false /\
   Num.le (Sample.parseTimeToSeconds (endTime s))
          (Sample.parseTimeToSeconds (startTime s)) = true) /\
  error (handleAddClip Sample.parseTimeToSeconds "1700000000006" s) =
  Some "End time must be after start time.".
Proof.
  intros s. split; [repeat split|].
  destruct (handleAddClip_messages Sample.parseTimeToSeconds "1700000000006" s)
    as (_ & H & _).
  exact (H eq_refl eq_refl eq_refl).
Defined.

(** ** An undisturbed run, and a cancelled one *)

Lemma repeat_S n : map S (repeat 0 n) = repeat 1 n.
Proof. induction n; cbn; congruence. Qed.

Lemma playthrough_timers surface cs :
  Forall (fun e => isTimer e = true) (playthrough surface cs).
Proof.
  induction cs as [|c cs IH]; [constructor|].
  rewrite playthrough_cons. apply Forall_app. split; [|exact IH].
  unfold segmentEvents. apply Forall_app. split.
  - apply Forall_forall. intros e He. apply in_map_iff in He.
    destruct He as (t & <- & _). reflexivity.
  - repeat constructor.
Qed.

Section UndisturbedFacts.
Variable formatTime : number -> string.

Lemma undisturbed_step tracks w e :
  Undisturbed tracks w -> isTimer e = true ->
  Undisturbed tracks (step formatTime noThrow w e).
Proof.
  unfold Undisturbed. intros H He.
  destruct w as [a pr ch sn st rc li se po co tr].
  destruct e as [r|t| |v|d| ]; try discriminate; cbn in *.
  - destruct po as [[pe rs ci sl]|]; [|exact H]. destruct ci; [|exact H].
    unfold intervalCallback. cbn.
    destruct rs, (Num.ge t pe); cbn; exact H.
  - destruct po as [[pe rs ci sl]|]; [|exact H]. destruct sl; [|exact H].
    cbn. destruct co; try (destruct H as (_ & _ & _ & _ & _ & _ & []); fail).
    + rewrite tryCatch_iteration. cbn -[nth_error showNat String.append].
      destruct H as (? & ? & ? & ? & ? & ? & -> & ->).
      destruct (nth_error sn (S i)); cbn -[showNat String.append]; repeat split; assumption.
    + cbn. exact H.
Qed.

Lemma undisturbed_events tracks w events :
  Undisturbed tracks w -> Forall (fun e => isTimer e = true) events ->
  Undisturbed tracks (fold_left (step formatTime noThrow) events w).
Proof.
  intros H He. revert w H. induction He as [|e events He _ IH]; intros w H; cbn.
  - exact H.
  - apply IH. now apply undisturbed_step.
Qed.

Lemma granted_undisturbed s pl tracks :
  clips s <> [] ->
  Undisturbed tracks
    (step formatTime noThrow (handleCreateVideo (idle s (Some pl)))
       (StreamSettled (inr tracks))).
Proof.
  intros Hne. unfold handleCreateVideo. cbn.
  destruct (clips s) as [|c cs]; [congruence|]. cbn -[afterStream].
  erewrite tryCatch_afterStream by reflexivity. rewrite tryCatch_iteration.
  unfold started, Undisturbed. destruct pl as [[] vol pg];
    cbn -[showNat String.append]; repeat split.
Qed.

Lemma finalize_after_data (throws : Op -> option Exn) w ds tracks :
  recorder w <> None -> stopEvent w = true -> recordedChunks w = [] ->
  stream w = Some tracks ->
  let w' := step formatTime throws
              (fold_left (step formatTime throws) (map DataAvailable ds) w)
              StopFires in
  finishedVideoUrl (app w') =
    match List.concat ds with
    | [] => finishedVideoUrl (app w)
    | _ => Some (List.concat ds)
    end /\
  (List.concat ds <> [] -> processingStatus (app w') = "Done!") /\
  error (app w') = error (app w) /\ isProcessing (app w') = false /\
  listening w' = false /\ stream w' = Some (map S tracks) /\
  recorder w' = recorder w /\ control w' = control w.
Proof.
  intros Hr Hs Hc Ht w'. unfold w'.
  rewrite (data_accumulates formatTime throws w ds Hr), Hc. cbn [app].
  rewrite <- (concat_hasData ds).
  pose proof (hasData_nonempty ds) as N.
  destruct w as [a pr ch sn st rc li se po co tr]. cbn in *. subst.
  unfold onstop. rewrite stopTracks_eq. cbn.
  destruct (filter hasData ds) as [|c cs].
  - cbn. repeat split. intros H. now destruct H.
  - destruct c as [|b c]; [inversion N; congruence|]. cbn. repeat split.
Qed.
End UndisturbedFacts.

(** X18.  The undisturbed run.  The stream is granted, no call throws,
    the surface reaches the end of every clip, the tab stays visible, and
    the recorder delivers the chunks [ds] before its stop event.  Then the
    loop is left at its end and the run is finished: no error, the
    processing flag down, the watcher deregistered, the recorder inactive,
    [stop()] called exactly once on every track, and the object URL names
    all the data in order, with status [Done!] - or there is no URL, if
    there was no data. *)
Theorem undisturbed_run_delivers_the_recording
    (formatTime : number -> string) (s : AppState) (pl : Player)
    (surface : Clip -> list number * number) (tracks : nat) (ds : list Blob) :
  clips s <> [] -> Forall (reachesEnd surface) (clips s) ->
  let w := run formatTime noThrow s (Some pl)
             (StreamSettled (inr tracks) :: playthrough surface (clips s) ++
              map DataAvailable ds ++ [StopFires]) in
  control w = Completed /\ error (app w) = None /\
  isProcessing (app w) = false /\ listening w = false /\
  recorder w = Some inactive /\ stream w = Some (repeat 1 tracks) /\
  finishedVideoUrl (app w) =
    match List.concat ds with
    | [] => None
    | _ => Some (List.concat ds)
    end /\
  (List.concat ds <> [] -> processingStatus (app w) = "Done!").
Proof.
  intros Hne Hr w.
  set (w2 := run formatTime noThrow s (Some pl)
               (StreamSettled (inr tracks) :: playthrough surface (clips s))).
  assert (E : w = step formatTime noThrow
                    (fold_left (step formatTime noThrow) (map DataAvailable ds) w2)
                    StopFires).
  { unfold w, w2, run. cbn [fold_left]. now rewrite !fold_left_app. }
  assert (C : control w2 = Completed) by (now apply run_plays_through).
  assert (U : Undisturbed tracks w2).
  { unfold w2, run. cbn [fold_left]. apply undisturbed_events.
    - now apply granted_undisturbed.
    - apply playthrough_timers. }
  destruct U as (Ue & Up & Uf & Ul & Us & Uc & Uk). rewrite C in Uk.
  destruct Uk as [Ur Ust].
  assert (R : recorder w2 <> None) by congruence.
  destruct (finalize_after_data formatTime noThrow w2 ds (repeat 0 tracks)
              R Ust Uc Us) as (F1 & F2 & F3 & F4 & F5 & F6 & F7 & F8).
  rewrite <- E in *. rewrite Uf in F1. rewrite repeat_S in F6.
  repeat split; try congruence; assumption.
Qed.

Lemma undisturbed_run_delivers_the_recording_witness :
  (Sample.queue <> [] /\ Forall (reachesEnd Sample.surface) Sample.queue) /\
  finishedVideoUrl (app (run Sample.formatTime noThrow Sample.state Runs.ready
                           Runs.oneChunk)) = Some [Byte.x1a; Byte.x45].
Proof.
  assert (N : Sample.queue <> []) by discriminate.
  assert (R : Forall (reachesEnd Sample.surface) Sample.queue).
  { repeat constructor. }
  split; [split; assumption|].
  apply (undisturbed_run_delivers_the_recording Sample.formatTime Sample.state
           Sample.player Sample.surface 2 [[Byte.x1a; Byte.x45]] N R).
Defined.

(** X19.  A cancelled run still offers what was recorded.  When the tab
    is hidden while the recorder is recording and nothing is on record
    yet, and the recorder then delivers the chunks [ds] before its stop
    event, the cancellation error stays, and next to it the object URL
    names all that data, with status [Done!] if there is any. *)
Theorem cancelled_run_keeps_the_recording
    (formatTime : number -> string) (throws : Op -> option Exn)
    (w : World) (tracks : MediaStream) (ds : list Blob) :
  listening w = true -> recorder w = Some recording ->
  stream w = Some tracks -> recordedChunks w = [] ->
  let w' := fold_left (step formatTime throws)
              (VisibilityChange hidden :: map DataAvailable ds ++ [StopFires]) w in
  error (app w') = Some cancelledMessage /\
  isProcessing (app w') = false /\
  finishedVideoUrl (app w') =
    match List.concat ds with
    | [] => finishedVideoUrl (app w)
    | _ => Some (List.concat ds)
    end /\
  (List.concat ds <> [] -> processingStatus (app w') = "Done!").
Proof.
  intros Hl Hr Hs Hc w'.
  set (w1 := step formatTime throws w (VisibilityChange hidden)).
  assert (E : w' = step formatTime throws
                     (fold_left (step formatTime throws) (map DataAvailable ds) w1)
                     StopFires).
  { unfold w', w1. cbn [fold_left]. now rewrite fold_left_app. }
  assert (H1 : recorder w1 = Some inactive /\ stopEvent w1 = true /\
               recordedChunks w1 = [] /\ stream w1 = Some (map S tracks) /\
               error (app w1) = Some cancelledMessage /\
               finishedVideoUrl (app w1) = finishedVideoUrl (app w)).
  { unfold w1. destruct w as [a pr ch sn st rc li se po co tr]. cbn in *. subst.
    unfold visibilityHandler. rewrite stopTracks_eq. cbn. repeat split. }
  destruct H1 as (R1 & S1 & C1 & T1 & E1 & F1).
  assert (R : recorder w1 <> None) by congruence.
  destruct (finalize_after_data formatTime throws w1 ds (map S tracks) R S1 C1 T1)
    as (G1 & G2 & G3 & G4 & _).
  rewrite <- E in *. rewrite F1 in G1. repeat split; try congruence; assumption.
Qed.

Lemma cancelled_run_keeps_the_recording_witness :
  let w := run Sample.formatTime noThrow Sample.state Runs.ready Runs.firstPlayed in
  let w' := fold_left (step Sample.formatTime noThrow)
              (VisibilityChange hidden :: map DataAvailable [[Byte.x1a]] ++ [StopFires])
              w in
  (listening w = true /\ recorder w = Some recording /\
   stream w = Some [0; 0] /\ recordedChunks w = []) /\
  error (app w') = Some cancelledMessage /\
  finishedVideoUrl (app w') = Some [Byte.x1a].
Proof.
  intros w w'. split; [repeat split|].
  destruct (cancelled_run_keeps_the_recording Sample.formatTime noThrow w [0; 0]
              [[Byte.x1a]] eq_refl eq_refl eq_refl eq_refl) as (H1 & _ & H2 & _).
  split; [exact H1|exact H2].
Defined.
